(** * haze/lexicon.py: dynamic lexicon growth

    A shallow embedding of [src/haze/lexicon.py] (classes [AbsorptionRecord],
    [LexiconStats], [Lexicon]) and the properties of absorption,
    reinforcement, field injection, decay and statistics.

    Modelling conventions.
    - Python [str] is [string]; the embedding covers ASCII text, where
      [str.lower] and the regex class [\w] are the ASCII ones below.
    - Python [float] weights are exact rationals [Q]: binary64 rounding,
      infinities and NaN are outside the model.
    - Python [int] token ids and counts are [Z]; lengths are [nat].
    - [set] is [gset], [dict] is [gmap], [Counter] is a [gmap] read with
      default 0.
    - The tokenizer ([Vocab], module haze.haze) is not part of the modelled
      file: it is the record [Vocab] of the three capabilities the lexicon
      calls.  The clock [time.time()] is an argument of [absorb].
    - [get_resonant_words] depends on the insertion order of the dict, which
      the map does not keep: it takes the item list of the dict as an
      argument.  The [AsyncLexicon] wrapper is embedded as one task sees it
      (each method runs to completion; the SQLite tables are maps keyed by
      their primary keys); the interleaving of tasks is not embedded. *)

From Stdlib Require Import QArith Qround Lqa.
From stdpp Require Import base gmap strings list fin_maps fin_sets.
From Stdlib Require Import Ascii.

Local Open Scope Z_scope.
Set Warnings "-clear-no-such-hyp".

(** ** Numbers *)

Module Num.

(** [x < y] on floats, as a boolean. *)
Definition Qltb (x y : Q) : bool := negb (Qle_bool y x).

(** Python's [min(a, b)]: the first argument unless the second is
    strictly smaller. *)
Definition py_min (a b : Q) : Q := if Qltb b a then b else a.

(** Python's [int(x)] on a finite float: truncation toward zero. *)
Definition py_int (x : Q) : Z := Z.quot (Qnum x) (Zpos (Qden x)).

End Num.

(** ** Extraction: [re.findall(r'\b\w+\b', text.lower())] *)

Module Extract.

Definition code (c : ascii) : nat := nat_of_ascii c.

(** [c.lower()] for an ASCII character: A-Z move to a-z. *)
Definition lower_char (c : ascii) : ascii :=
  if (65 <=? code c)%nat && (code c <=? 90)%nat
  then ascii_of_nat (code c + 32) else c.

(** [text.lower()] *)
Fixpoint lower (s : string) : string :=
  match s with
  | EmptyString => EmptyString
  | String c rest => String (lower_char c) (lower rest)
  end.

(** The regex class [\w] on ASCII: letters, digits and underscore. *)
Definition is_word_char (c : ascii) : bool :=
  let n := code c in
  ((97 <=? n)%nat && (n <=? 122)%nat)
  || ((65 <=? n)%nat && (n <=? 90)%nat)
  || ((48 <=? n)%nat && (n <=? 57)%nat)
  || (n =? 95)%nat.

(** A match in progress is closed when a non-word character or the end
    of the text is met; an empty run is no match. *)
Definition flush (cur : string) : list string :=
  match cur with
  | EmptyString => []
  | _ => [cur]
  end.

(** Left-to-right scan of [\b\w+\b]: [cur] is the run of word
    characters read since the last boundary. *)
Fixpoint scan (cur : string) (s : string) : list string :=
  match s with
  | EmptyString => flush cur
  | String c rest =>
      if is_word_char c then scan (cur +:+ String c EmptyString) rest
      else flush cur ++ scan EmptyString rest
  end.

(** [re.findall(r'\b\w+\b', s)] *)
Definition findall_words (s : string) : list string := scan EmptyString s.

(** [Lexicon._extract_words] *)
Definition _extract_words (min_word_length : Z) (text : string) : list string :=
  let words := findall_words (lower text) in
  filter (λ w, min_word_length ≤ Z.of_nat (String.length w)) words.

(** [words[i]]; the loop of [_extract_trigrams] never reads out of range. *)
Definition word_at (words : list string) (i : nat) : string :=
  nth i words EmptyString.

(** [Lexicon._extract_trigrams]: [for i in range(len(words) - 2)]. *)
Definition _extract_trigrams (text : string) : list (string * string * string) :=
  let words := findall_words (lower text) in
  map (λ i, (word_at words i, word_at words (i + 1)%nat, word_at words (i + 2)%nat))
      (seq 0 (length words - 2)%nat).



End Extract.

(** ** Data model *)

Definition trigram : Type := string * string * string.

(** [@dataclass AbsorptionRecord] *)
Record AbsorptionRecord := {
  timestamp : Q;
  source : string;
  words : list string;
  trigrams : list trigram;
}.

(** [AbsorptionRecord.count] *)
Definition count (r : AbsorptionRecord) : nat :=
  (length (words r) + length (trigrams r))%nat.

(** [@dataclass LexiconStats] *)
Record LexiconStats := {
  total_words : nat;
  total_trigrams : nat;
  unique_sources : nat;
  recent_absorptions : nat;
  growth_rate : Q;
}.

(** The tokenizer the lexicon is constructed with: [vocab.encode],
    [vocab.decode], [vocab.vocab_size]. *)
Record Vocab := {
  encode : string → list Z;
  decode : list Z → string;
  vocab_size : Z;
}.

(** The co-occurrence field: [bigram_counts] maps a token to a [Counter]
    of followers, [trigram_counts] maps a token pair to a [Counter]. *)
Record CooccurField := {
  bigram_counts : gmap Z (gmap Z Z);
  trigram_counts : gmap (Z * Z) (gmap Z Z);
}.

(** ** Field injection *)

Module Field.

(** [if k not in d: d[k] = Counter()] *)
Definition vivify `{Countable K} (k : K) (d : gmap K (gmap Z Z)) : gmap K (gmap Z Z) :=
  match d !! k with
  | None => <[k := ∅]> d
  | Some _ => d
  end.

(** [c[t] += n] on a [Counter]: a missing key reads 0 and is then stored. *)
Definition counter_add (t : Z) (n : Z) (c : gmap Z Z) : gmap Z Z :=
  <[t := default 0 (c !! t) + n]> c.

(** [d[k][t] += n] where [d[k]] exists. *)
Definition add_at `{Countable K} (k : K) (t : Z) (n : Z) (d : gmap K (gmap Z Z)) :
    gmap K (gmap Z Z) :=
  match d !! k with
  | Some c => <[k := counter_add t n c]> d
  | None => d
  end.

(** The two statements [if k not in d: d[k] = Counter()] and
    [d[k][t] += n]. *)
Definition bump `{Countable K} (k : K) (t : Z) (n : Z) (d : gmap K (gmap Z Z)) :
    gmap K (gmap Z Z) :=
  add_at k t n (vivify k d).

(** What a reader of the store sees for a context and an outcome: the
    [Counter] value, 0 when absent. *)
Definition count_of `{Countable K} (d : gmap K (gmap Z Z)) (k : K) (t : Z) : Z :=
  default 0 (d !! k ≫= λ c, c !! t).

Definition bigram_count (f : CooccurField) (a b : Z) : Z :=
  count_of (bigram_counts f) a b.

Definition trigram_count (f : CooccurField) (a b c : Z) : Z :=
  count_of (trigram_counts f) (a, b) c.

(** [tokens[0]] and [tokens[-1]] of a non-empty token list. *)
Definition first_tok (l : list Z) : Z := hd 0 l.
Definition last_tok (l : list Z) : Z := List.last l 0.

(** [not tokens] *)
Definition is_empty (l : list Z) : bool :=
  match l with [] => true | _ => false end.

(** [Lexicon._inject_trigram] *)
Definition _inject_trigram (v : Vocab) (tri : trigram) (weight : Q)
    (f : CooccurField) : CooccurField :=
  let w1_tokens := encode v tri.1.1 in
  let w2_tokens := encode v tri.1.2 in
  let w3_tokens := encode v tri.2 in
  if is_empty w1_tokens || is_empty w2_tokens || is_empty w3_tokens then f
  else
    let last_w1 := last_tok w1_tokens in
    let first_w2 := first_tok w2_tokens in
    let last_w2 := last_tok w2_tokens in
    let first_w3 := first_tok w3_tokens in
    let bc := bump last_w1 first_w2 (Num.py_int weight) (bigram_counts f) in
    let bc := bump last_w2 first_w3 (Num.py_int weight) bc in
    let key := (last_w1, first_w2) in
    let tc := bump key last_w2 (Num.py_int weight) (trigram_counts f) in
    {| bigram_counts := bc; trigram_counts := tc |}.

End Field.

(** ** The lexicon *)

(** The attributes of a [Lexicon] instance.  [injections] is not an
    attribute of the class: it is the trace of the calls of
    [_inject_trigram] made so far, kept to state how often injection runs. *)
Record Lexicon := {
  vocab : Vocab;
  field : CooccurField;
  decay_rate : Q;
  min_word_length : Z;
  absorbed_words : gset string;
  absorbed_trigrams : gset trigram;
  word_weights : gmap string Q;
  history : list AbsorptionRecord;
  corpus_words : gset string;
  injections : list (trigram * Q);
}.

Module Lex.

(** [Lexicon._build_corpus_vocabulary] *)
Definition _build_corpus_vocabulary (v : Vocab) : gset string :=
  list_to_set ((λ token_id, Extract.lower (decode v [token_id])) <$> seqZ 0 (vocab_size v)).

(** [Lexicon.__init__] *)
Definition __init__ (v : Vocab) (cooccur_field : CooccurField)
    (rate : Q) (min_len : Z) : Lexicon :=
  {| vocab := v; field := cooccur_field; decay_rate := rate;
     min_word_length := min_len;
     absorbed_words := ∅; absorbed_trigrams := ∅; word_weights := ∅;
     history := []; corpus_words := _build_corpus_vocabulary v;
     injections := [] |}.

(** The reinforcement of an already absorbed word:
    [min(2.0, weight + 0.1)]. *)
Definition reinforce (weight : Q) : Q := Num.py_min 2 (weight + 0.1).

(** Body of [for word in words] in [absorb]; the state is
    [(absorbed_words, word_weights, new_words)]. *)
Definition absorb_word (boost : Q)
    (st : gset string * gmap string Q * list string) (word : string) :
    gset string * gmap string Q * list string :=
  let '(aw, ww, new_words) := st in
  if decide (word ∉ aw)
  then ({[word]} ∪ aw, <[word := boost]> ww, new_words ++ [word])
  else (aw, <[word := reinforce (default 1%Q (ww !! word))]> ww, new_words).

(** Body of [for tri in trigrams] in [absorb]; the state is
    [(absorbed_trigrams, new_trigrams, field, injections)]. *)
Definition absorb_trigram (v : Vocab) (boost : Q)
    (st : gset trigram * list trigram * CooccurField * list (trigram * Q))
    (tri : trigram) :
    gset trigram * list trigram * CooccurField * list (trigram * Q) :=
  let '(ats, new_trigrams, f, log) := st in
  if decide (tri ∉ ats)
  then ({[tri]} ∪ ats, new_trigrams ++ [tri],
        Field._inject_trigram v tri boost f, log ++ [(tri, boost)])
  else st.

(** [history.append(record)] followed by the cut to the last 100. *)
Definition push_history (h : list AbsorptionRecord) (r : AbsorptionRecord) :
    list AbsorptionRecord :=
  let h := h ++ [r] in
  if (100 <? length h)%nat then drop (length h - 100)%nat h else h.

(** [Lexicon.absorb]; [now] is the reading of [time.time()]. *)
Definition absorb (text source : string) (boost now : Q) (L : Lexicon) :
    Lexicon * AbsorptionRecord :=
  let ws := Extract._extract_words (min_word_length L) text in
  let ts := Extract._extract_trigrams text in
  let '(aw, ww, new_words) :=
    foldl (absorb_word boost) (absorbed_words L, word_weights L, []) ws in
  let '(ats, new_trigrams, f, log) :=
    foldl (absorb_trigram (vocab L) boost)
          (absorbed_trigrams L, [], field L, injections L) ts in
  let record := {| timestamp := now; source := source;
                   words := new_words; trigrams := new_trigrams |} in
  ({| vocab := vocab L; field := f; decay_rate := decay_rate L;
      min_word_length := min_word_length L;
      absorbed_words := aw; absorbed_trigrams := ats; word_weights := ww;
      history := push_history (history L) record;
      corpus_words := corpus_words L; injections := log |},
   record).

(** Body of [for word, weight in self.word_weights.items()] in [decay];
    the state is [(word_weights, words_to_remove, decayed)]. *)
Definition decay_scan (rate : Q)
    (st : gmap string Q * list string * nat) (item : string * Q) :
    gmap string Q * list string * nat :=
  let '(ww, words_to_remove, decayed) := st in
  let new_weight := (item.2 * rate)%Q in
  if Num.Qltb new_weight 0.1
  then (ww, words_to_remove ++ [item.1], S decayed)
  else (<[item.1 := new_weight]> ww, words_to_remove, decayed).

(** Body of [for word in words_to_remove]. *)
Definition decay_remove (st : gset string * gmap string Q) (word : string) :
    gset string * gmap string Q :=
  (st.1 ∖ {[word]}, delete word st.2).

(** [Lexicon.decay] *)
Definition decay (L : Lexicon) : Lexicon * nat :=
  let '(ww, words_to_remove, decayed) :=
    foldl (decay_scan (decay_rate L)) (word_weights L, [], 0%nat)
          (map_to_list (word_weights L)) in
  let '(aw, ww) := foldl decay_remove (absorbed_words L, ww) words_to_remove in
  ({| vocab := vocab L; field := field L; decay_rate := decay_rate L;
      min_word_length := min_word_length L;
      absorbed_words := aw; absorbed_trigrams := absorbed_trigrams L;
      word_weights := ww; history := history L;
      corpus_words := corpus_words L; injections := injections L |},
   decayed).

(** [sum(r.count for r in recent)] *)
Definition total_absorbed (recent : list AbsorptionRecord) : nat :=
  foldr (λ r acc, (count r + acc)%nat) 0%nat recent.

(** [self.history[-10:]] *)
Definition recent_of (h : list AbsorptionRecord) : list AbsorptionRecord :=
  drop (length h - 10)%nat h.

(** [Lexicon.stats] *)
Definition stats (L : Lexicon) : LexiconStats :=
  let sources : gset string := list_to_set (source <$> history L) in
  let growth :=
    if (2 <=? length (history L))%nat
    then
      let recent := recent_of (history L) in
      (inject_Z (Z.of_nat (total_absorbed recent))
       / inject_Z (Z.of_nat (length recent)))%Q
    else 0%Q in
  {| total_words := size (absorbed_words L);
     total_trigrams := size (absorbed_trigrams L);
     unique_sources := size sources;
     recent_absorptions := length (history L);
     growth_rate := growth |}.

(** A call of a state-changing method, and a sequence of calls on one
    instance. *)
Inductive call :=
| Absorb (text src : string) (boost now : Q)
| Decay.

Definition step (L : Lexicon) (c : call) : Lexicon :=
  match c with
  | Absorb text src boost now => (absorb text src boost now L).1
  | Decay => (decay L).1
  end.

Definition run (cs : list call) (L : Lexicon) : Lexicon := foldl step L cs.

(** *** Vocabulary of the statements *)

(** The items of [l] that are not in [seen], each at its first occurrence:
    what a loop of the shape [if x not in seen: seen.add(x); new.append(x)]
    collects. *)
Fixpoint fresh_of `{Countable A} (seen : gset A) (l : list A) : list A :=
  match l with
  | [] => []
  | x :: rest =>
      if decide (x ∉ seen) then x :: fresh_of ({[x]} ∪ seen) rest
      else fresh_of seen rest
  end.

(** Number of occurrences of a word in a word list. *)
Definition occurrences (w : string) (ws : list string) : nat :=
  length (filter (λ x, x = w) ws).

(** The weight entry of a word after the word loop of [absorb], from
    whether the word was absorbed before ([known]), its entry before
    ([old]) and its number of occurrences [k] in the extracted words: a
    known word is reinforced [k] times, a new word is set to [boost] and
    reinforced [k - 1] times. *)
Definition final_weight (boost : Q) (known : bool) (old : option Q) (k : nat) :
    option Q :=
  match k with
  | O => old
  | S k' =>
      Some (if known then Nat.iter k reinforce (default 1%Q old)
            else Nat.iter k' reinforce boost)
  end.

(** A weight entry that [decay] removes: its new weight is below 0.1. *)
Definition fades (rate : Q) (item : string * Q) : Prop :=
  Num.Qltb (item.2 * rate) 0.1 = true.

#[global] Instance fades_dec rate item : Decision (fades rate item).
Proof. unfold fades. apply _. Defined.

(** The last [n] items of a list, [l[-n:]] for positive [n]. *)
Definition last_n {A} (n : nat) (l : list A) : list A :=
  drop (length l - n)%nat l.

(** The source tags passed to [absorb], in call order. *)
Definition sources_of (cs : list call) : list string :=
  omap (λ c, match c with Absorb _ src _ _ => Some src | Decay => None end) cs.

(** The boosts passed to [absorb]. *)
Definition boosts_of (cs : list call) : list Q :=
  omap (λ c, match c with Absorb _ _ boost _ => Some boost | Decay => None end) cs.

(** How often [_inject_trigram] was called for a trigram. *)
Definition injected_times (tri : trigram) (L : Lexicon) : nat :=
  length (filter (λ c, c.1 = tri) (injections L)).

(** No pair count and no triple count of [f] exceeds that of [g]. *)
Definition field_le (f g : CooccurField) : Prop :=
  (∀ a b, Field.bigram_count f a b ≤ Field.bigram_count g a b)
  ∧ (∀ a b c, Field.trigram_count f a b c ≤ Field.trigram_count g a b c).

(** A weight in the interval (0, 2.0]. *)
Definition in_range (x : Q) : Prop := (0 < x)%Q ∧ (x <= 2)%Q.

(** Every weight entry lies in (0, 2.0]. *)
Definition weights_in_range (ww : gmap string Q) : Prop :=
  ∀ w x, ww !! w = Some x → in_range x.

(** The trace of injections lists each absorbed trigram once. *)
Definition trace_inv (L : Lexicon) : Prop :=
  NoDup (injections L).*1
  ∧ ∀ tri, tri ∈ (injections L).*1 ↔ tri ∈ absorbed_trigrams L.

End Lex.

(** A sample tokenizer for the concrete runs below: a character-level
    vocabulary of the lowercase letters; other characters have no token. *)
Module Sample.

Fixpoint letters (s : string) : list Z :=
  match s with
  | EmptyString => []
  | String c rest =>
      let n := Extract.code c in
      if (97 <=? n)%nat && (n <=? 122)%nat
      then Z.of_nat (n - 97) :: letters rest
      else letters rest
  end.

Definition vocab : Vocab :=
  {| encode := letters;
     decode := λ ids, match ids with
                      | [i] => String (ascii_of_nat (Z.to_nat i + 97)) EmptyString
                      | _ => EmptyString
                      end;
     vocab_size := 26 |}.

Definition empty_field : CooccurField :=
  {| bigram_counts := ∅; trigram_counts := ∅ |}.

(** [Lexicon(vocab, field)] with the default [decay_rate] and
    [min_word_length]. *)
Definition fresh : Lexicon := Lex.__init__ vocab empty_field 0.99 3.

End Sample.

(** ** Queries and the history of a run *)

Module Query.

(** One step of a stable sort by descending weight: [x], which stood
    before all of [l] in the input, goes in front of the first item whose
    weight is not above its own. *)
Fixpoint insert_desc (x : string * Q) (l : list (string * Q)) : list (string * Q) :=
  match l with
  | [] => [x]
  | y :: rest =>
      if Num.Qltb x.2 y.2 then y :: insert_desc x rest else x :: l
  end.

(** [sorted(items, key=lambda x: x[1], reverse=True)]: Python's sort is
    stable, also under [reverse=True]. *)
Definition sorted_desc (items : list (string * Q)) : list (string * Q) :=
  foldr insert_desc [] items.

(** The slice [l[:n]] for a Python [int]: a negative [n] counts from the
    end. *)
Definition py_prefix {A} (n : Z) (l : list A) : list A :=
  if 0 <=? n then take (Z.to_nat n) l
  else take (length l - Z.to_nat (- n))%nat l.

(** [Lexicon.get_resonant_words]; [items] is [self.word_weights.items()],
    the entries in the insertion order of the dict, which the map
    [word_weights] does not record. *)
Definition get_resonant_words (items : list (string * Q)) (n : Z) : list string :=
  (py_prefix n (sorted_desc items)).*1.

(** [items] lists the entries of [word_weights], each once, in some order. *)
Definition items_of (L : Lexicon) (items : list (string * Q)) : Prop :=
  items ≡ₚ map_to_list (word_weights L).

(** A list of entries in descending order of weight. *)
Fixpoint descending (l : list (string * Q)) : Prop :=
  match l with
  | [] => True
  | x :: rest => Forall (λ y, (y.2 <= x.2)%Q) rest ∧ descending rest
  end.


End Query.

Module Trace.

(** The records returned by the calls of [absorb] in a sequence of calls,
    in call order. *)
Fixpoint records_of (cs : list Lex.call) (L : Lexicon) : list AbsorptionRecord :=
  match cs with
  | [] => []
  | c :: rest =>
      match c with
      | Lex.Absorb text src boost now => [(Lex.absorb text src boost now L).2]
      | Lex.Decay => []
      end ++ records_of rest (Lex.step L c)
  end.

(** [n] calls of [decay] in a row. *)
Definition decays (n : nat) (L : Lexicon) : Lexicon :=
  Nat.iter n (λ L, (Lex.decay L).1) L.




(** The token pairs whose count an injection of [tri] raises, with
    multiplicity, and the (pair, token) triple it raises; none when a word
    has no tokens. *)
Definition pairs_of (v : Vocab) (tri : trigram) : list (Z * Z) :=
  let w1 := encode v tri.1.1 in
  let w2 := encode v tri.1.2 in
  let w3 := encode v tri.2 in
  if Field.is_empty w1 || Field.is_empty w2 || Field.is_empty w3 then []
  else [(Field.last_tok w1, Field.first_tok w2);
        (Field.last_tok w2, Field.first_tok w3)].

Definition triples_of (v : Vocab) (tri : trigram) : list (Z * Z * Z) :=
  let w1 := encode v tri.1.1 in
  let w2 := encode v tri.1.2 in
  let w3 := encode v tri.2 in
  if Field.is_empty w1 || Field.is_empty w2 || Field.is_empty w3 then []
  else [(Field.last_tok w1, Field.first_tok w2, Field.last_tok w2)].

(** How often an item occurs in a list. *)
Definition times {A} `{EqDecision A} (x : A) (l : list A) : Z :=
  Z.of_nat (length (filter (λ y, y = x) l)).

End Trace.

(** ** The persistence wrapper, one call at a time

    [AsyncLexicon] as seen by a single task: every method takes the lock,
    runs to completion and releases it.  The SQLite database is the
    content of its two tables, keyed by their primary keys;
    [INSERT OR REPLACE] writes the row of its key. *)

Record Db := {
  absorbed_words_table : gmap string (Q * string * Q);
  absorbed_trigrams_table : gmap trigram (string * Q);
}.

Record AsyncLexicon := {
  _sync : Lexicon;
  db_path : option string;
  _db_conn : option Db;
}.

Module Async.

(** [AsyncLexicon.__init__] *)
Definition __init__ (v : Vocab) (cooccur_field : CooccurField)
    (rate : Q) (min_len : Z) (path : option string) : AsyncLexicon :=
  {| _sync := Lex.__init__ v cooccur_field rate min_len;
     db_path := path; _db_conn := None |}.

(** The truth value of [self.db_path]: [None] and the empty string are
    false. *)
Definition has_path (path : option string) : bool :=
  match path with
  | None | Some EmptyString => false
  | Some _ => true
  end.

(** [AsyncLexicon.__aenter__]; [has_aiosqlite] is the module flag
    [HAS_AIOSQLITE] and [stored] the content of the database at the path.
    [_init_db] creates the two tables only if they do not exist. *)
Definition __aenter__ (has_aiosqlite : bool) (stored : Db) (A : AsyncLexicon) :
    AsyncLexicon :=
  if has_path (db_path A) && has_aiosqlite
  then {| _sync := _sync A; db_path := db_path A; _db_conn := Some stored |}
  else A.

(** Body of [for word in record.words] in [_persist_record]. *)
Definition persist_word (L : Lexicon) (record : AbsorptionRecord)
    (db : Db) (word : string) : Db :=
  let weight := default 1%Q (word_weights L !! word) in
  {| absorbed_words_table :=
       <[word := (weight, source record, timestamp record)]>
         (absorbed_words_table db);
     absorbed_trigrams_table := absorbed_trigrams_table db |}.

(** Body of [for tri in record.trigrams] in [_persist_record]. *)
Definition persist_trigram (record : AbsorptionRecord) (db : Db) (tri : trigram) : Db :=
  {| absorbed_words_table := absorbed_words_table db;
     absorbed_trigrams_table :=
       <[tri := (source record, timestamp record)]> (absorbed_trigrams_table db) |}.

(** [AsyncLexicon._persist_record] *)
Definition _persist_record (L : Lexicon) (record : AbsorptionRecord) (db : Db) : Db :=
  let db := foldl (persist_word L record) db (words record) in
  foldl (persist_trigram record) db (trigrams record).

(** [AsyncLexicon.absorb] *)
Definition absorb (text source : string) (boost now : Q) (A : AsyncLexicon) :
    AsyncLexicon * AbsorptionRecord :=
  let '(L, record) := Lex.absorb text source boost now (_sync A) in
  let conn :=
    match _db_conn A with
    | Some db =>
        if (0 <? count record)%nat then Some (_persist_record L record db)
        else Some db
    | None => None
    end in
  ({| _sync := L; db_path := db_path A; _db_conn := conn |}, record).

(** [AsyncLexicon.decay] *)
Definition decay (A : AsyncLexicon) : AsyncLexicon * nat :=
  let '(L, decayed) := Lex.decay (_sync A) in
  ({| _sync := L; db_path := db_path A; _db_conn := _db_conn A |}, decayed).

(** [AsyncLexicon.get_resonant_words] *)
Definition get_resonant_words (items : list (string * Q)) (n : Z)
    (A : AsyncLexicon) : list string :=
  Query.get_resonant_words items n.

(** [AsyncLexicon.stats] *)
Definition stats (A : AsyncLexicon) : LexiconStats := Lex.stats (_sync A).

Definition step (A : AsyncLexicon) (c : Lex.call) : AsyncLexicon :=
  match c with
  | Lex.Absorb text src boost now => (absorb text src boost now A).1
  | Lex.Decay => (decay A).1
  end.

Definition run (cs : list Lex.call) (A : AsyncLexicon) : AsyncLexicon :=
  foldl step A cs.

End Async.

(** * Properties *)

(** ** Facts about the numeric helpers *)

Module NumFacts.
Import Num.

Lemma Qltb_lt x y : Qltb x y = true ↔ (x < y)%Q.
Proof.
  unfold Qltb. rewrite negb_true_iff, <- not_true_iff_false, Qle_bool_iff.
  split; [apply Qnot_le_lt | apply Qlt_not_le].
Qed.

Lemma Qltb_ge x y : Qltb x y = false ↔ (y <= x)%Q.
Proof.
  unfold Qltb. rewrite negb_false_iff. apply Qle_bool_iff.
Qed.

Lemma py_min_le_l a b : (py_min a b <= a)%Q.
Proof.
  unfold py_min. destruct (Qltb b a) eqn:E.
  - apply Qltb_lt in E. now apply Qlt_le_weak.
  - apply Qle_refl.
Qed.

Lemma py_min_lt a b : (b < a)%Q → py_min a b = b.
Proof. intros H. unfold py_min. apply Qltb_lt in H. now rewrite H. Qed.

Lemma py_min_ge a b : (a <= b)%Q → py_min a b = a.
Proof. intros H. unfold py_min. apply Qltb_ge in H. now rewrite H. Qed.

Lemma py_int_small x : (0 < x)%Q → (x < 1)%Q → py_int x = 0.
Proof.
  destruct x as [n d]. unfold Qlt, py_int. simpl. intros H0 H1.
  apply Z.quot_small. lia.
Qed.

End NumFacts.

(** ** Extraction *)

Module ExtractFacts.
Import Extract.

















End ExtractFacts.

(** ** The co-occurrence store *)

Module FieldFacts.
Import Field.

Section Counters.
Context `{Countable K}.
Implicit Types (d : gmap K (gmap Z Z)) (k : K) (t n : Z).

(** A [bump] adds [n] to the one count it addresses and leaves every
    other count as it was. *)
Lemma count_of_bump d k t n k' t' :
  count_of (bump k t n d) k' t'
  = count_of d k' t' + (if decide (k = k' ∧ t = t') then n else 0).
Proof.
  unfold count_of, bump, add_at, vivify, counter_add.
  destruct (d !! k) as [c|] eqn:Hk.
  - rewrite Hk. destruct (decide (k = k')) as [<-|Hne].
    + rewrite lookup_insert_eq, Hk. simpl.
      destruct (decide (t = t')) as [<-|Hnt].
      * rewrite lookup_insert_eq. rewrite decide_True by done.
        destruct (c !! t); simpl; lia.
      * rewrite lookup_insert_ne by done. rewrite decide_False by (intros [??]; congruence).
        lia.
    + rewrite lookup_insert_ne by done. rewrite decide_False by (intros [??]; congruence).
      lia.
  - rewrite lookup_insert_eq. destruct (decide (k = k')) as [<-|Hne].
    + rewrite insert_insert_eq, lookup_insert_eq, Hk. simpl.
      destruct (decide (t = t')) as [<-|Hnt].
      * rewrite lookup_insert_eq. rewrite decide_True by done.
        rewrite lookup_empty. simpl. lia.
      * rewrite lookup_insert_ne by done. rewrite decide_False by (intros [??]; congruence).
        rewrite lookup_empty. simpl. lia.
    + rewrite !lookup_insert_ne by done. rewrite decide_False by (intros [??]; congruence).
      lia.
Qed.

End Counters.

(** The guard [if not w1_tokens or not w2_tokens or not w3_tokens: return]. *)
Lemma inject_trigram_unencodable v tri weight f :
  encode v tri.1.1 = [] ∨ encode v tri.1.2 = [] ∨ encode v tri.2 = [] →
  _inject_trigram v tri weight f = f.
Proof.
  intros Hany. unfold _inject_trigram.
  destruct Hany as [-> | [-> | ->]]; simpl;
    by rewrite ?orb_true_r.
Qed.

(** The three increments of a performed injection. *)
Lemma inject_trigram_counts v tri weight f :
  encode v tri.1.1 ≠ [] → encode v tri.1.2 ≠ [] → encode v tri.2 ≠ [] →
  let n := Num.py_int weight in
  let last_w1 := last_tok (encode v tri.1.1) in
  let first_w2 := first_tok (encode v tri.1.2) in
  let last_w2 := last_tok (encode v tri.1.2) in
  let first_w3 := first_tok (encode v tri.2) in
  let f' := _inject_trigram v tri weight f in
  (∀ a b, bigram_count f' a b
          = bigram_count f a b
            + (if decide (last_w1 = a ∧ first_w2 = b) then n else 0)
            + (if decide (last_w2 = a ∧ first_w3 = b) then n else 0))
  ∧ (∀ a b c, trigram_count f' a b c
              = trigram_count f a b c
                + (if decide ((last_w1, first_w2) = (a, b) ∧ last_w2 = c)
                   then n else 0)).
Proof.
  intros H1 H2 H3 n last_w1 first_w2 last_w2 first_w3 f'.
  assert (f' = {| bigram_counts :=
                    bump last_w2 first_w3 n
                      (bump last_w1 first_w2 n (bigram_counts f));
                  trigram_counts :=
                    bump (last_w1, first_w2) last_w2 n (trigram_counts f) |})
    as ->.
  { unfold f', _inject_trigram.
    destruct (encode v tri.1.1) eqn:E1; [done |].
    destruct (encode v tri.1.2) eqn:E2; [done |].
    destruct (encode v tri.2) eqn:E3; [done |].
    reflexivity. }
  split.
  - intros a b. unfold bigram_count. simpl. rewrite !count_of_bump. lia.
  - intros a b c. unfold trigram_count. simpl. by rewrite count_of_bump.
Qed.

(** With a non-negative integer weight an injection lowers no count. *)
Lemma inject_trigram_mono v tri weight f :
  0 ≤ Num.py_int weight →
  (∀ a b, bigram_count f a b ≤ bigram_count (_inject_trigram v tri weight f) a b)
  ∧ (∀ a b c, trigram_count f a b c
              ≤ trigram_count (_inject_trigram v tri weight f) a b c).
Proof.
  intros Hn.
  destruct (decide (encode v tri.1.1 = [] ∨ encode v tri.1.2 = []
                    ∨ encode v tri.2 = [])) as [Hany|Hall].
  - by rewrite inject_trigram_unencodable.
  - destruct (inject_trigram_counts v tri weight f) as [Hb Ht];
      [naive_solver.. |].
    split.
    + intros a b. rewrite Hb. repeat case_decide; lia.
    + intros a b c. rewrite Ht. case_decide; lia.
Qed.

(** With an integer weight of zero an injection changes no count. *)
Lemma inject_trigram_zero v tri weight f :
  Num.py_int weight = 0 →
  (∀ a b, bigram_count (_inject_trigram v tri weight f) a b = bigram_count f a b)
  ∧ (∀ a b c, trigram_count (_inject_trigram v tri weight f) a b c
              = trigram_count f a b c).
Proof.
  intros Hn.
  destruct (decide (encode v tri.1.1 = [] ∨ encode v tri.1.2 = []
                    ∨ encode v tri.2 = [])) as [Hany|Hall].
  - by rewrite inject_trigram_unencodable.
  - destruct (inject_trigram_counts v tri weight f) as [Hb Ht];
      [naive_solver.. |].
    split.
    + intros a b. rewrite Hb, Hn. repeat case_decide; lia.
    + intros a b c. rewrite Ht, Hn. case_decide; lia.
Qed.

End FieldFacts.

(** ** The loops of [absorb] *)

Module LoopFacts.
Import Lex.

Section Fresh.
Context `{Countable A}.
Implicit Types (seen : gset A) (l : list A) (x : A).

Lemma elem_of_fresh_of l : ∀ seen x,
  x ∈ fresh_of seen l ↔ x ∈ l ∧ x ∉ seen.
Proof.
  induction l as [|y l IH]; intros seen x; simpl.
  - set_solver.
  - destruct (decide (y ∉ seen)) as [Hy|Hy].
    + rewrite elem_of_cons, IH.
      destruct (decide (x = y)) as [->|Hne]; set_solver.
    + rewrite IH. apply dec_stable in Hy.
      destruct (decide (x = y)) as [->|Hne]; set_solver.
Qed.

Lemma NoDup_fresh_of l : ∀ seen, NoDup (fresh_of seen l).
Proof.
  induction l as [|y l IH]; intros seen; simpl.
  - constructor.
  - destruct (decide (y ∉ seen)); [| apply IH].
    constructor; [| apply IH].
    rewrite elem_of_fresh_of. set_solver.
Qed.

End Fresh.

(** The trigram loop: the set grows by the extracted trigrams, the new
    ones are collected in order, and [_inject_trigram] runs once for each
    new one. *)
Lemma trigram_loop v boost ts : ∀ ats nt f log,
  foldl (absorb_trigram v boost) (ats, nt, f, log) ts
  = (list_to_set ts ∪ ats,
     nt ++ fresh_of ats ts,
     foldl (λ f tri, Field._inject_trigram v tri boost f) f (fresh_of ats ts),
     log ++ ((λ tri, (tri, boost)) <$> fresh_of ats ts)).
Proof.
  induction ts as [|t ts IH]; intros ats nt f log; simpl.
  - rewrite !app_nil_r. do 3 f_equal. set_solver.
  - destruct (decide (t ∉ ats)) as [Ht|Ht]; rewrite IH; simpl.
    + rewrite <- !app_assoc. simpl. do 3 f_equal. set_solver.
    + apply dec_stable in Ht. do 3 f_equal. set_solver.
Qed.

Lemma word_loop_words boost ws : ∀ aw ww nw,
  (foldl (absorb_word boost) (aw, ww, nw) ws).1.1 = list_to_set ws ∪ aw.
Proof.
  induction ws as [|x ws IH]; intros aw ww nw; simpl.
  - set_solver.
  - destruct (decide (x ∉ aw)) as [Hx|Hx]; rewrite IH.
    + set_solver.
    + apply dec_stable in Hx. set_solver.
Qed.

Lemma word_loop_new boost ws : ∀ aw ww nw,
  (foldl (absorb_word boost) (aw, ww, nw) ws).2 = nw ++ fresh_of aw ws.
Proof.
  induction ws as [|x ws IH]; intros aw ww nw; simpl.
  - by rewrite app_nil_r.
  - destruct (decide (x ∉ aw)) as [Hx|Hx]; rewrite IH; [| done].
    by rewrite <- app_assoc.
Qed.

Lemma occurrences_cons w x ws :
  occurrences w (x :: ws)
  = if decide (x = w) then S (occurrences w ws) else occurrences w ws.
Proof.
  unfold occurrences. rewrite filter_cons. by destruct (decide (x = w)).
Qed.

Lemma occurrences_pos w ws : w ∈ ws ↔ (0 < occurrences w ws)%nat.
Proof.
  induction ws as [|x ws IH].
  - unfold occurrences. simpl. split; [by intros ?%elem_of_nil | lia].
  - rewrite occurrences_cons, elem_of_cons.
    destruct (decide (x = w)) as [->|Hne].
    + split; [lia | by left].
    + rewrite <- IH. naive_solver.
Qed.

Lemma word_loop_weight boost ws w : ∀ aw ww nw,
  (foldl (absorb_word boost) (aw, ww, nw) ws).1.2 !! w
  = final_weight boost (bool_decide (w ∈ aw)) (ww !! w) (occurrences w ws).
Proof.
  induction ws as [|x ws IH]; intros aw ww nw; [done |].
  rewrite occurrences_cons. cbn [foldl absorb_word].
  destruct (decide (x = w)) as [->|Hne].
  - destruct (decide (w ∉ aw)) as [Hw|Hw]; rewrite IH.
    + rewrite bool_decide_eq_true_2 by set_solver.
      rewrite (bool_decide_eq_false_2 (w ∈ aw)) by done.
      rewrite lookup_insert_eq.
      by destruct (occurrences w ws).
    + apply dec_stable in Hw. rewrite !bool_decide_eq_true_2 by done.
      rewrite lookup_insert_eq.
      destruct (occurrences w ws) as [|k]; [done |].
      cbn [final_weight default]. by rewrite (Nat.iter_succ_r (S k)).
  - destruct (decide (x ∉ aw)) as [Hx|Hx]; rewrite IH.
    + rewrite lookup_insert_ne by done.
      by rewrite (bool_decide_ext (w ∈ {[x]} ∪ aw) (w ∈ aw)) by set_solver.
    + by rewrite lookup_insert_ne.
Qed.

Lemma word_loop_dom boost ws : ∀ aw ww nw,
  dom (foldl (absorb_word boost) (aw, ww, nw) ws).1.2 = list_to_set ws ∪ dom ww.
Proof.
  induction ws as [|x ws IH]; intros aw ww nw; simpl.
  - set_solver.
  - destruct (decide (x ∉ aw)); rewrite IH, dom_insert_L; set_solver.
Qed.

(** [absorb] in terms of its two loops. *)
Lemma absorb_unfold text src boost now L :
  let ws := Extract._extract_words (min_word_length L) text in
  let ts := Extract._extract_trigrams text in
  let wl := foldl (absorb_word boost) (absorbed_words L, word_weights L, []) ws in
  let new_trigrams := fresh_of (absorbed_trigrams L) ts in
  let record := {| timestamp := now; source := src;
                   words := wl.2; trigrams := new_trigrams |} in
  absorb text src boost now L
  = ({| vocab := vocab L;
        field := foldl (λ f tri, Field._inject_trigram (vocab L) tri boost f)
                       (field L) new_trigrams;
        decay_rate := decay_rate L;
        min_word_length := min_word_length L;
        absorbed_words := wl.1.1;
        absorbed_trigrams := list_to_set ts ∪ absorbed_trigrams L;
        word_weights := wl.1.2;
        history := push_history (history L) record;
        corpus_words := corpus_words L;
        injections := injections L ++ ((λ tri, (tri, boost)) <$> new_trigrams) |},
     record).
Proof.
  intros ws ts wl new_trigrams record. unfold absorb.
  fold ws ts. rewrite trigram_loop. fold wl.
  by destruct wl as [[aw ww] nw].
Qed.

End LoopFacts.

(** ** Trigram bookkeeping and the injection trace *)

Module TrigramFacts.
Import Lex.

(** [decay] touches the word structures only. *)
Lemma decay_frame L :
  let L' := (decay L).1 in
  vocab L' = vocab L ∧ field L' = field L ∧ decay_rate L' = decay_rate L
  ∧ min_word_length L' = min_word_length L
  ∧ absorbed_trigrams L' = absorbed_trigrams L
  ∧ history L' = history L ∧ injections L' = injections L.
Proof.
  unfold decay.
  destruct (foldl (decay_scan (decay_rate L)) _ _) as [[ww rm] d].
  destruct (foldl decay_remove _ _) as [aw ww'].
  by repeat split.
Qed.

Lemma absorb_frame text src boost now L :
  let L' := (absorb text src boost now L).1 in
  vocab L' = vocab L ∧ decay_rate L' = decay_rate L
  ∧ min_word_length L' = min_word_length L.
Proof. by rewrite LoopFacts.absorb_unfold. Qed.

Lemma fst_tagged {A B} (b : B) (l : list A) : ((λ x, (x, b)) <$> l).*1 = l.
Proof. rewrite <- list_fmap_compose. exact (list_fmap_id l). Qed.

Lemma trace_inv_init v f rate mlen : trace_inv (__init__ v f rate mlen).
Proof. split; simpl; [constructor | set_solver]. Qed.

Lemma trace_inv_absorb text src boost now L :
  trace_inv L → trace_inv (absorb text src boost now L).1.
Proof.
  intros [Hnd Hset]. rewrite LoopFacts.absorb_unfold. unfold trace_inv. simpl.
  rewrite fmap_app, fst_tagged. split.
  - apply NoDup_app. split; [done |]. split.
    + intros t Ht Hnew. apply LoopFacts.elem_of_fresh_of in Hnew as [_ Hnew].
      by apply Hnew, Hset.
    + apply LoopFacts.NoDup_fresh_of.
  - intros t. rewrite elem_of_app, LoopFacts.elem_of_fresh_of, Hset.
    rewrite elem_of_union, elem_of_list_to_set.
    destruct (decide (t ∈ absorbed_trigrams L)); naive_solver.
Qed.

Lemma trace_inv_step L c : trace_inv L → trace_inv (step L c).
Proof.
  intros HL. destruct c as [text src boost now|]; simpl.
  - by apply trace_inv_absorb.
  - destruct (decay_frame L) as (_ & _ & _ & _ & Hat & _ & Hinj).
    unfold trace_inv. by rewrite Hat, Hinj.
Qed.

Lemma trace_inv_run cs : ∀ L, trace_inv L → trace_inv (run cs L).
Proof.
  induction cs as [|c cs IH]; intros L HL; [done |].
  apply IH. by apply trace_inv_step.
Qed.

Lemma keyed_once {A B} `{EqDecision A} (l : list (A * B)) (a : A) :
  NoDup l.*1 →
  length (filter (λ c, c.1 = a) l) = if decide (a ∈ l.*1) then 1%nat else 0%nat.
Proof.
  induction l as [|[x y] l IH]; intros Hnd.
  - destruct (decide (a ∈ ([] : list (A * B)).*1)) as [Hin|Hin]; [| done].
    by apply elem_of_nil in Hin.
  - rewrite fmap_cons in Hnd. apply NoDup_cons in Hnd as [Hx Hnd].
    rewrite filter_cons, fmap_cons. cbn [fst].
    destruct (decide (x = a)) as [->|Hne].
    + rewrite decide_True by (by left). cbn [length].
      rewrite IH by done. by rewrite decide_False.
    + rewrite IH by done.
      destruct (decide (a ∈ l.*1)) as [Hin|Hin].
      * rewrite decide_True; [done | by right].
      * rewrite decide_False; [done |].
        intros [?|?]%elem_of_cons; [congruence | done].
Qed.

Lemma injected_times_inv L tri :
  trace_inv L →
  injected_times tri L
  = if decide (tri ∈ absorbed_trigrams L) then 1%nat else 0%nat.
Proof.
  intros [Hnd Hset]. unfold injected_times. rewrite keyed_once by done.
  destruct (decide (tri ∈ absorbed_trigrams L)) as [Hin|Hin].
  - rewrite decide_True; [done | by apply Hset].
  - rewrite decide_False; [done | by rewrite Hset].
Qed.

(** Calls made for other trigrams do not count for [tri]. *)
Lemma tagged_none (boost : Q) (tri : trigram) (l : list trigram) :
  tri ∉ l → filter (λ c, c.1 = tri) ((λ t, (t, boost)) <$> l) = [].
Proof.
  induction l as [|t l IH]; intros Hl; [done |].
  rewrite fmap_cons, filter_cons. cbn [fst].
  apply not_elem_of_cons in Hl as [Hne Hl].
  rewrite decide_False by congruence. by apply IH.
Qed.

(** An injection that is a no-op can be dropped from a run of injections. *)
Lemma inject_skip v boost tri (l : list trigram) : ∀ f,
  (∀ g, Field._inject_trigram v tri boost g = g) →
  foldl (λ f t, Field._inject_trigram v t boost f) f l
  = foldl (λ f t, Field._inject_trigram v t boost f) f (filter (λ t, t ≠ tri) l).
Proof.
  intros f Hid. revert f.
  induction l as [|t l IH]; intros f; [done |].
  rewrite filter_cons. destruct (decide (t ≠ tri)) as [Hne|Heq]; simpl.
  - apply IH.
  - apply dec_stable in Heq as ->. rewrite Hid. apply IH.
Qed.

(** A store that is nowhere below another one. *)
Lemma field_le_trans f g h :
  field_le f g → field_le g h → field_le f h.
Proof.
  intros [Hb1 Ht1] [Hb2 Ht2]. split; intros; etrans; eauto.
Qed.

Lemma inject_all_mono v boost (l : list trigram) : ∀ f,
  0 ≤ Num.py_int boost →
  field_le f (foldl (λ f t, Field._inject_trigram v t boost f) f l).
Proof.
  induction l as [|t l IH]; intros f Hb; [by split |]. simpl.
  eapply field_le_trans; [| by apply IH].
  by apply FieldFacts.inject_trigram_mono.
Qed.

Lemma run_field_mono cs : ∀ L,
  Forall (λ boost, 0 ≤ Num.py_int boost) (boosts_of cs) →
  field_le (field L) (field (run cs L)).
Proof.
  induction cs as [|c cs IH]; intros L Hcs; [by split |].
  change (run (c :: cs) L) with (run cs (step L c)).
  destruct c as [text src boost now|].
  - unfold boosts_of in Hcs. simpl in Hcs.
    apply Forall_cons in Hcs as [Hb Hcs].
    eapply field_le_trans; [| by apply IH].
    simpl. rewrite LoopFacts.absorb_unfold. simpl.
    by apply inject_all_mono.
  - destruct (decay_frame L) as (_ & Hf & _). simpl in Hf.
    rewrite <- Hf. by apply IH.
Qed.

End TrigramFacts.

(** ** Decay *)

Module DecayFacts.
Import Lex.

(** The scan over the weight entries: entries that fade are queued for
    removal and counted, the others are overwritten with their new
    weight. *)
Lemma decay_scan_loop rate (l : list (string * Q)) : ∀ ww rm d,
  NoDup l.*1 →
  let r := foldl (decay_scan rate) (ww, rm, d) l in
  r.1.2 = rm ++ (filter (fades rate) l).*1
  ∧ r.2 = (d + length (filter (fades rate) l))%nat
  ∧ (∀ k x, (k, x) ∈ l → ¬ fades rate (k, x) → r.1.1 !! k = Some (x * rate)%Q)
  ∧ (∀ k, (∀ x, (k, x) ∈ l → fades rate (k, x)) → r.1.1 !! k = ww !! k).
Proof.
  induction l as [|[k0 x0] l IH]; intros ww rm d Hnd.
  - simpl. rewrite app_nil_r. split_and!; [done | lia | | done].
    by intros k x ?%elem_of_nil.
  - rewrite fmap_cons in Hnd. apply NoDup_cons in Hnd as [Hk0 Hnd].
    cbn [foldl decay_scan fst snd]. rewrite filter_cons.
    destruct (Num.Qltb (x0 * rate) 0.1) eqn:Hf.
    + rewrite decide_True by done.
      destruct (IH ww (rm ++ [k0]) (S d) Hnd) as (Hrm & Hd & Hkeep & Hrest).
      split_and!.
      * rewrite Hrm, fmap_cons, <- app_assoc. done.
      * rewrite Hd. simpl. lia.
      * intros k x [Heq|Hin]%elem_of_cons Hnf; [| by apply Hkeep].
        injection Heq as -> ->. by destruct Hnf.
      * intros k Hall. apply Hrest. intros x Hin. apply Hall. by right.
    + rewrite decide_False by (unfold fades; simpl; congruence).
      destruct (IH (<[k0 := (x0 * rate)%Q]> ww) rm d Hnd)
        as (Hrm & Hd & Hkeep & Hrest).
      split_and!; [done | done | |].
      * intros k x [Heq|Hin]%elem_of_cons Hnf; [| by apply Hkeep].
        injection Heq as -> ->. rewrite Hrest.
        -- by rewrite lookup_insert_eq.
        -- intros x Hin. destruct Hk0.
           apply list_elem_of_fmap. by exists (k0, x).
      * intros k Hall. rewrite Hrest.
        -- apply lookup_insert_ne. intros ->.
           specialize (Hall x0 ltac:(by left)).
           unfold fades in Hall. simpl in Hall. congruence.
        -- intros x Hin. apply Hall. by right.
Qed.

(** The removal loop. *)
Lemma decay_remove_loop (rm : list string) : ∀ aw ww,
  let r := foldl decay_remove (aw, ww) rm in
  r.1 = aw ∖ list_to_set rm
  ∧ ∀ k, r.2 !! k = if decide (k ∈ rm) then None else ww !! k.
Proof.
  induction rm as [|w rm IH]; intros aw ww; cbv zeta.
  - split; [set_solver |]. intros k.
    destruct (decide (k ∈ [])) as [Hin|Hin]; [| done].
    by apply elem_of_nil in Hin.
  - change (foldl decay_remove (aw, ww) (w :: rm))
      with (foldl decay_remove (aw ∖ {[w]}, delete w ww) rm).
    destruct (IH (aw ∖ {[w]}) (delete w ww)) as [Haw Hww]. split.
    + rewrite Haw. set_solver.
    + intros k. rewrite Hww.
      destruct (decide (k ∈ rm)) as [Hin|Hin].
      * rewrite decide_True; [done | by right].
      * destruct (decide (k = w)) as [->|Hne].
        -- rewrite decide_True by (by left). apply lookup_delete_eq.
        -- rewrite decide_False by (by intros [?|?]%elem_of_cons).
           by apply lookup_delete_ne.
Qed.

(** What [decay] computes. *)
Lemma decay_spec L :
  let rate := decay_rate L in
  let L' := (decay L).1 in
  word_weights L'
  = (λ x, (x * rate)%Q) <$> filter (λ item, ¬ fades rate item) (word_weights L)
  ∧ absorbed_words L'
    = absorbed_words L ∖ dom (filter (fades rate) (word_weights L))
  ∧ (decay L).2 = size (filter (fades rate) (word_weights L)).
Proof.
  intros rate L'. unfold L', decay. fold rate.
  pose proof (decay_scan_loop rate (map_to_list (word_weights L))
                (word_weights L) [] 0%nat (NoDup_fst_map_to_list _))
    as (Hrm & Hd & Hkeep & Hrest).
  destruct (foldl (decay_scan rate) _ _) as [[ww rm] d]. simpl in *.
  pose proof (decay_remove_loop rm (absorbed_words L) ww) as [Haw Hww].
  destruct (foldl decay_remove _ _) as [aw ww']. simpl in *.
  assert (∀ k, k ∈ rm ↔ ∃ x, word_weights L !! k = Some x ∧ fades rate (k, x))
    as Hrm_in.
  { intros k. rewrite Hrm, list_elem_of_fmap. split.
    - intros ([k' x] & -> & [Hf Hin%elem_of_map_to_list]%list_elem_of_filter).
      by exists x.
    - intros (x & Hx & Hf). exists (k, x). split; [done |].
      apply list_elem_of_filter. split; [done |]. by apply elem_of_map_to_list. }
  assert (list_to_set rm = dom (filter (fades rate) (word_weights L))
          :> gset string) as Hdom.
  { apply set_eq. intros k. rewrite elem_of_list_to_set, Hrm_in, elem_of_dom.
    unfold is_Some. by setoid_rewrite map_lookup_filter_Some. }
  split_and!.
  - apply map_eq. intros k. rewrite Hww, lookup_fmap, map_lookup_filter.
    destruct (word_weights L !! k) as [x|] eqn:Hk; simpl.
    + destruct (decide (fades rate (k, x))) as [Hf|Hf].
      * rewrite decide_True by (apply Hrm_in; eauto).
        by rewrite option_guard_False by tauto.
      * rewrite decide_False.
        2:{ rewrite Hrm_in. intros (y & Hy & Hfy). congruence. }
        rewrite option_guard_True by done. simpl.
        apply Hkeep; [| done]. by apply elem_of_map_to_list.
    + rewrite decide_False.
      2:{ rewrite Hrm_in. intros (y & Hy & _). congruence. }
      rewrite Hrest; [done |].
      intros x Hin%elem_of_map_to_list. congruence.
  - by rewrite Haw, Hdom.
  - rewrite Hd. simpl. rewrite <- size_dom, <- Hdom.
    rewrite size_list_to_set.
    + by rewrite Hrm, length_fmap.
    + rewrite Hrm.
      eapply sublist_NoDup; [apply (NoDup_fst_map_to_list (word_weights L)) |].
      apply fmap_sublist, sublist_filter.
Qed.

Lemma decay_lookup L w :
  word_weights (decay L).1 !! w
  = match word_weights L !! w with
    | Some x => if decide (fades (decay_rate L) (w, x)) then None
                else Some (x * decay_rate L)%Q
    | None => None
    end.
Proof.
  destruct (decay_spec L) as (-> & _ & _).
  rewrite lookup_fmap, map_lookup_filter.
  destruct (word_weights L !! w) as [x|]; simpl; [| done].
  destruct (decide (fades (decay_rate L) (w, x))).
  - by rewrite option_guard_False by tauto.
  - by rewrite option_guard_True.
Qed.

Lemma decay_words L w :
  w ∈ absorbed_words (decay L).1
  ↔ w ∈ absorbed_words L
    ∧ ¬ ∃ x, word_weights L !! w = Some x ∧ fades (decay_rate L) (w, x).
Proof.
  destruct (decay_spec L) as (_ & -> & _).
  rewrite elem_of_difference, elem_of_dom. unfold is_Some.
  by setoid_rewrite map_lookup_filter_Some.
Qed.

End DecayFacts.

(** ** Weights *)

Module WeightFacts.
Import Lex.

Lemma reinforce_le_cap y : (reinforce y <= 2)%Q.
Proof. apply NumFacts.py_min_le_l. Qed.

Lemma reinforce_cases y :
  ((2 <= y + 0.1)%Q ∧ reinforce y = 2%Q)
  ∨ ((y + 0.1 < 2)%Q ∧ reinforce y = (y + 0.1)%Q).
Proof.
  unfold reinforce. destruct (Qlt_le_dec (y + 0.1) 2) as [Hlt|Hge].
  - right. split; [done |]. by apply NumFacts.py_min_lt.
  - left. split; [done |]. by apply NumFacts.py_min_ge.
Qed.


Lemma reinforce_pos y : (0 < y)%Q → (0 < reinforce y)%Q.
Proof.
  intros Hy. destruct (reinforce_cases y) as [[_ ->]|[_ ->]]; lra.
Qed.

Lemma reinforce_in_range y : (0 < y)%Q → in_range (reinforce y).
Proof. intros Hy. split; [by apply reinforce_pos | apply reinforce_le_cap]. Qed.

Lemma inject_nat_succ (m : nat) :
  (inject_Z (Z.of_nat (S m)) == inject_Z (Z.of_nat m) + 1)%Q.
Proof.
  rewrite Nat2Z.inj_succ. unfold Z.succ. by rewrite inject_Z_plus.
Qed.



(** One pass of the word loop keeps the weights in range when [boost] is. *)
Lemma absorb_word_in_range boost st w :
  in_range boost → weights_in_range st.1.2 →
  weights_in_range (absorb_word boost st w).1.2.
Proof.
  destruct st as [[aw ww] nw]. simpl. intros Hb Hww.
  destruct (decide (w ∉ aw)); simpl; intros k x.
  - destruct (decide (w = k)) as [->|Hne].
    + rewrite lookup_insert_eq. by intros [= <-].
    + rewrite lookup_insert_ne by done. apply Hww.
  - destruct (decide (w = k)) as [->|Hne].
    + rewrite lookup_insert_eq. intros [= <-]. apply reinforce_in_range.
      destruct (ww !! k) as [y|] eqn:Hy; simpl; [| done].
      by apply (Hww k y).
    + rewrite lookup_insert_ne by done. apply Hww.
Qed.

Lemma word_loop_in_range boost ws : ∀ st,
  in_range boost → weights_in_range st.1.2 →
  weights_in_range (foldl (absorb_word boost) st ws).1.2.
Proof.
  induction ws as [|w ws IH]; intros st Hb Hst; [done |].
  simpl. apply IH; [done |]. by apply absorb_word_in_range.
Qed.

Lemma absorb_in_range text src boost now L :
  in_range boost → weights_in_range (word_weights L) →
  weights_in_range (word_weights (absorb text src boost now L).1).
Proof.
  intros Hb HL. rewrite LoopFacts.absorb_unfold. simpl.
  by apply word_loop_in_range.
Qed.

Lemma absorb_dom text src boost now L :
  dom (word_weights L) = absorbed_words L →
  dom (word_weights (absorb text src boost now L).1)
  = absorbed_words (absorb text src boost now L).1.
Proof.
  intros HL. rewrite LoopFacts.absorb_unfold. simpl.
  by rewrite LoopFacts.word_loop_dom, LoopFacts.word_loop_words, HL.
Qed.

Lemma decay_in_range L :
  (decay_rate L <= 1)%Q → weights_in_range (word_weights L) →
  weights_in_range (word_weights (decay L).1).
Proof.
  intros Hr HL w y. rewrite DecayFacts.decay_lookup.
  destruct (word_weights L !! w) as [x|] eqn:Hx; [| done].
  destruct (decide (fades (decay_rate L) (w, x))) as [Hf|Hf]; [done |].
  intros [= <-]. destruct (HL w x Hx) as [H0 H2].
  unfold fades in Hf. simpl in Hf.
  apply not_true_is_false, NumFacts.Qltb_ge in Hf.
  split; [lra | nra].
Qed.

Lemma decay_dom L :
  dom (word_weights L) = absorbed_words L →
  dom (word_weights (decay L).1) = absorbed_words (decay L).1.
Proof.
  intros HL. apply set_eq. intros w.
  rewrite DecayFacts.decay_words, <- HL, !elem_of_dom, DecayFacts.decay_lookup.
  destruct (word_weights L !! w) as [x|] eqn:Hx.
  - destruct (decide (fades (decay_rate L) (w, x))) as [Hf|Hf].
    + split; [by intros [? ?] |]. intros [_ Hn]. destruct Hn. eauto.
    + split; [| by eauto]. intros _. split; [by eauto |].
      intros (y & [= <-] & Hy). done.
  - split; [by intros [? ?] | by intros [[? ?] _]].
Qed.

Lemma run_dom cs : ∀ L,
  dom (word_weights L) = absorbed_words L →
  dom (word_weights (run cs L)) = absorbed_words (run cs L).
Proof.
  induction cs as [|c cs IH]; intros L HL; [done |].
  change (run (c :: cs) L) with (run cs (step L c)). apply IH.
  destruct c as [text src boost now|]; simpl.
  - by apply absorb_dom.
  - by apply decay_dom.
Qed.

Lemma run_in_range cs : ∀ L,
  (decay_rate L <= 1)%Q → Forall in_range (boosts_of cs) →
  weights_in_range (word_weights L) →
  weights_in_range (word_weights (run cs L)).
Proof.
  induction cs as [|c cs IH]; intros L Hr Hcs HL; [done |].
  change (run (c :: cs) L) with (run cs (step L c)).
  destruct c as [text src boost now|].
  - unfold boosts_of in Hcs. simpl in Hcs.
    apply Forall_cons in Hcs as [Hb Hcs]. apply IH; [| done |].
    + simpl.
      by destruct (TrigramFacts.absorb_frame text src boost now L) as (_ & -> & _).
    + simpl. by apply absorb_in_range.
  - apply IH; [| done |].
    + simpl. by destruct (TrigramFacts.decay_frame L) as (_ & _ & -> & _).
    + simpl. by apply decay_in_range.
Qed.

End WeightFacts.

(** ** History and statistics *)

Module HistoryFacts.
Import Lex.

Section LastN.
Context {A : Type}.
Implicit Types (l : list A) (n : nat).

Lemma last_n_all n l : (length l ≤ n)%nat → last_n n l = l.
Proof.
  intros Hn. unfold last_n. by replace (length l - n)%nat with 0%nat by lia.
Qed.

Lemma length_last_n n l : length (last_n n l) = Nat.min n (length l).
Proof. unfold last_n. rewrite length_drop. lia. Qed.

Lemma last_n_snoc n l x : last_n n (last_n n l ++ [x]) = last_n n (l ++ [x]).
Proof.
  destruct (decide (n = 0)%nat) as [->|Hn].
  { unfold last_n. by rewrite !Nat.sub_0_r, !drop_all. }
  destruct (decide (length l ≤ n)%nat) as [Hle|Hgt].
  - by rewrite (last_n_all n l).
  - unfold last_n at 1 3. rewrite !length_app, length_last_n. simpl.
    replace (Nat.min n (length l) + 1 - n)%nat with 1%nat by lia.
    unfold last_n.
    replace (length l + 1 - n)%nat with (S (length l - n)) by lia.
    rewrite (drop_app_le l) by lia.
    destruct (drop (length l - n) l) as [|y t] eqn:Hd.
    + apply (f_equal length) in Hd. rewrite length_drop in Hd. simpl in Hd. lia.
    + simpl. rewrite drop_0. f_equal.
      change t with (drop 1 (y :: t)). rewrite <- Hd, drop_drop.
      f_equal. lia.
Qed.

End LastN.

Lemma fmap_last_n {A B} (f : A → B) n (l : list A) :
  f <$> last_n n l = last_n n (f <$> l).
Proof. unfold last_n. by rewrite fmap_drop, length_fmap. Qed.

Lemma push_history_last h r : push_history h r = last_n 100 (h ++ [r]).
Proof.
  unfold push_history.
  destruct (100 <? length (h ++ [r]))%nat eqn:Hlen; [done |].
  apply Nat.ltb_ge in Hlen. by rewrite last_n_all.
Qed.

Lemma run_snoc cs c L : run (cs ++ [c]) L = step (run cs L) c.
Proof. unfold run. by rewrite foldl_snoc. Qed.

Lemma sources_of_snoc cs c :
  sources_of (cs ++ [c])
  = sources_of cs ++ match c with Absorb _ src _ _ => [src] | Decay => [] end.
Proof. unfold sources_of. rewrite omap_app. by destruct c. Qed.

(** The source tags in the history are those of the last 100 calls of
    [absorb]. *)
Lemma history_sources v f rate mlen cs :
  source <$> history (run cs (__init__ v f rate mlen)) = last_n 100 (sources_of cs).
Proof.
  induction cs as [|c cs IH] using rev_ind; [done |].
  rewrite run_snoc, sources_of_snoc.
  destruct c as [text src boost now|]; simpl.
  - rewrite LoopFacts.absorb_unfold. simpl.
    rewrite push_history_last, fmap_last_n, fmap_app, IH. simpl.
    apply last_n_snoc.
  - destruct (TrigramFacts.decay_frame (run cs (__init__ v f rate mlen)))
      as (_ & _ & _ & _ & _ & -> & _).
    by rewrite app_nil_r.
Qed.

Lemma total_absorbed_sum (l : list AbsorptionRecord) :
  total_absorbed l = sum_list (count <$> l).
Proof. induction l as [|r l IH]; simpl; [done | by rewrite IH]. Qed.

Lemma recent_of_last (h : list AbsorptionRecord) :
  recent_of h = last_n (Nat.min 10 (length h)) h.
Proof. unfold recent_of, last_n. f_equal. lia. Qed.

End HistoryFacts.



(** C1: in every lexicon state, absorbing a text when a trigram is
    already in [absorbed_trigrams] leaves that trigram out of the record
    and calls [_inject_trigram] for the record's trigrams only, so not
    for it: the number of injection calls made for it is unchanged.  On
    an instance driven by any sequence of [absorb] and
    [decay] calls, [_inject_trigram] has been called exactly once for
    each absorbed trigram, before and after the call, and never for a
    trigram that is not absorbed.  (The [words] list holds strings, so a
    3-tuple is never one of its items.) *)
Theorem trigram_absorption_idempotent
    (L : Lexicon) (text src : string) (boost now : Q) (tri : trigram) :
  let L' := (Lex.absorb text src boost now L).1 in
  let record := (Lex.absorb text src boost now L).2 in
  tri ∈ absorbed_trigrams L →
  (tri ∉ trigrams record)
  ∧ injections L' = injections L ++ ((λ t, (t, boost)) <$> trigrams record)
  ∧ Lex.injected_times tri L' = Lex.injected_times tri L
  ∧ field L'
    = foldl (λ f t, Field._inject_trigram (vocab L) t boost f) (field L)
            (trigrams record)
  ∧ (∀ v f0 rate mlen cs, L = Lex.run cs (Lex.__init__ v f0 rate mlen) →
     Lex.injected_times tri L = 1%nat
     ∧ Lex.injected_times tri L' = 1%nat
     ∧ (∀ t, Lex.injected_times t L'
             = if decide (t ∈ absorbed_trigrams L') then 1%nat else 0%nat)).
Proof.
  intros L' record Hin.
  assert (tri ∉ trigrams record) as Hrec.
  { unfold record. rewrite LoopFacts.absorb_unfold. simpl.
    rewrite LoopFacts.elem_of_fresh_of. tauto. }
  split_and!.
  - exact Hrec.
  - unfold L', record. by rewrite LoopFacts.absorb_unfold.
  - unfold L', record in *. rewrite LoopFacts.absorb_unfold in *.
    unfold Lex.injected_times. simpl in *.
    rewrite filter_app, length_app, TrigramFacts.tagged_none by done.
    simpl. lia.
  - unfold L', record. by rewrite LoopFacts.absorb_unfold.
  - intros v f0 rate mlen cs HL.
    assert (Lex.trace_inv L) as Hinv.
    { rewrite HL. apply TrigramFacts.trace_inv_run, TrigramFacts.trace_inv_init. }
    assert (Lex.trace_inv L') as Hinv'.
    { by apply TrigramFacts.trace_inv_absorb. }
    assert (tri ∈ absorbed_trigrams L') as Hin'.
    { unfold L'. rewrite LoopFacts.absorb_unfold. simpl. set_solver. }
    split_and!.
    + rewrite TrigramFacts.injected_times_inv by done. by rewrite decide_True.
    + rewrite TrigramFacts.injected_times_inv by done. by rewrite decide_True.
    + intros t. by apply TrigramFacts.injected_times_inv.
Qed.

Lemma trigram_absorption_idempotent_witness :
  let L := Lex.run [Lex.Absorb "the cat sat" "user" 1 0; Lex.Decay] Sample.fresh in
  let L' := (Lex.absorb "the cat sat down" "self" 1 1 L).1 in
  let record := (Lex.absorb "the cat sat down" "self" 1 1 L).2 in
  ("the", "cat", "sat") ∈ absorbed_trigrams L
  ∧ (("the", "cat", "sat") ∉ trigrams record)
  ∧ Lex.injected_times ("the", "cat", "sat") L' = 1%nat.
Proof.
  intros L.
  assert (("the", "cat", "sat") ∈ absorbed_trigrams L) as Hin by (by vm_compute).
  pose proof (trigram_absorption_idempotent L "the cat sat down" "self" 1 1
                ("the", "cat", "sat") Hin) as (Hrec & _ & _ & _ & Hlife).
  destruct (Hlife Sample.vocab Sample.empty_field 0.99%Q 3
              [Lex.Absorb "the cat sat" "user" 1 0; Lex.Decay] eq_refl)
    as (_ & Hone & _).
  split; [exact Hin |]. split; [exact Hrec | exact Hone].
Defined.

(** C8: when one of the three words of a new trigram has no tokens,
    [_inject_trigram] returns the store as it received it, whatever the
    weight; [absorb] still adds the trigram to [absorbed_trigrams],
    reports it in the record's trigrams and records the injection
    attempt, and the store after [absorb] is the one produced by the
    injections of the other new trigrams alone. *)
Theorem unencodable_trigram_still_absorbed
    (text src : string) (boost now : Q) (L : Lexicon) (tri : trigram) :
  let L' := (Lex.absorb text src boost now L).1 in
  let record := (Lex.absorb text src boost now L).2 in
  tri ∈ Extract._extract_trigrams text →
  tri ∉ absorbed_trigrams L →
  encode (vocab L) tri.1.1 = [] ∨ encode (vocab L) tri.1.2 = []
    ∨ encode (vocab L) tri.2 = [] →
  (∀ weight f, Field._inject_trigram (vocab L) tri weight f = f)
  ∧ tri ∈ absorbed_trigrams L'
  ∧ tri ∈ trigrams record
  ∧ (tri, boost) ∈ injections L'
  ∧ field L'
    = foldl (λ f t, Field._inject_trigram (vocab L) t boost f) (field L)
            (filter (λ t, t ≠ tri) (trigrams record)).
Proof.
  intros L' record Hin Hnew Hany.
  assert (∀ weight f, Field._inject_trigram (vocab L) tri weight f = f) as Hid.
  { intros weight f. by apply FieldFacts.inject_trigram_unencodable. }
  assert (tri ∈ trigrams record) as Hrec.
  { unfold record. rewrite LoopFacts.absorb_unfold. simpl.
    by apply LoopFacts.elem_of_fresh_of. }
  split_and!; [done | | done | |].
  - unfold L'. rewrite LoopFacts.absorb_unfold. simpl. set_solver.
  - unfold L', record in *. rewrite LoopFacts.absorb_unfold in *. simpl in *.
    apply elem_of_app. right. apply list_elem_of_fmap. by exists tri.
  - unfold L', record. rewrite LoopFacts.absorb_unfold. simpl.
    by apply TrigramFacts.inject_skip.
Qed.

Lemma unencodable_trigram_still_absorbed_witness :
  let L' := (Lex.absorb "route 66 west" "user" 1 0 Sample.fresh).1 in
  let record := (Lex.absorb "route 66 west" "user" 1 0 Sample.fresh).2 in
  ("route", "66", "west") ∈ absorbed_trigrams L'
  ∧ ("route", "66", "west") ∈ trigrams record
  ∧ field L' = field Sample.fresh.
Proof.
  assert (("route", "66", "west") ∈ Extract._extract_trigrams "route 66 west")
    as Hin by (vm_compute; apply list_elem_of_here).
  assert (("route", "66", "west") ∉ absorbed_trigrams Sample.fresh)
    as Hnew by (by vm_compute).
  assert (encode (vocab Sample.fresh) "route" = []
          ∨ encode (vocab Sample.fresh) "66" = []
          ∨ encode (vocab Sample.fresh) "west" = [])
    as Hany by (right; left; reflexivity).
  pose proof (unencodable_trigram_still_absorbed "route 66 west" "user" 1 0
                Sample.fresh ("route", "66", "west") Hin Hnew Hany)
    as (_ & H2 & H3 & _ & H5).
  split; [exact H2 |]. split; [exact H3 |]. exact H5.
Defined.

(** C5, as the code has it: on an instance driven by calls of [absorb]
    whose boosts truncate to non-negative integers (boost above -1) and
    by calls of [decay], no pair count and no triple count of the store
    decreases.  A performed injection adds [int(weight)] to the pair
    count of (last(w1), first(w2)), to the pair count of
    (last(w2), first(w3)) and to the triple count of
    (last(w1), first(w2)) for last(w2), and changes no other count; a
    weight strictly between 0 and 1 truncates to 0 and changes no count. *)
Theorem injections_additive
    (cs : list Lex.call) (L : Lexicon) (tri : trigram) (weight : Q)
    (f : CooccurField) :
  (Forall (λ boost, 0 ≤ Num.py_int boost) (Lex.boosts_of cs) →
   Lex.field_le (field L) (field (Lex.run cs L)))
  ∧ (encode (vocab L) tri.1.1 ≠ [] → encode (vocab L) tri.1.2 ≠ [] →
     encode (vocab L) tri.2 ≠ [] →
     let n := Num.py_int weight in
     let last_w1 := Field.last_tok (encode (vocab L) tri.1.1) in
     let first_w2 := Field.first_tok (encode (vocab L) tri.1.2) in
     let last_w2 := Field.last_tok (encode (vocab L) tri.1.2) in
     let first_w3 := Field.first_tok (encode (vocab L) tri.2) in
     let f' := Field._inject_trigram (vocab L) tri weight f in
     (∀ a b, Field.bigram_count f' a b
             = Field.bigram_count f a b
               + (if decide (last_w1 = a ∧ first_w2 = b) then n else 0)
               + (if decide (last_w2 = a ∧ first_w3 = b) then n else 0))
     ∧ (∀ a b c, Field.trigram_count f' a b c
                 = Field.trigram_count f a b c
                   + (if decide ((last_w1, first_w2) = (a, b) ∧ last_w2 = c)
                      then n else 0)))
  ∧ ((0 < weight)%Q → (weight < 1)%Q →
     Num.py_int weight = 0
     ∧ (∀ a b, Field.bigram_count (Field._inject_trigram (vocab L) tri weight f) a b
               = Field.bigram_count f a b)
     ∧ (∀ a b c, Field.trigram_count (Field._inject_trigram (vocab L) tri weight f) a b c
                 = Field.trigram_count f a b c)).
Proof.
  split; [by apply TrigramFacts.run_field_mono |]. split.
  - intros H1 H2 H3. by apply FieldFacts.inject_trigram_counts.
  - intros H0 H1. pose proof (NumFacts.py_int_small weight H0 H1) as Hz.
    split; [done |]. by apply FieldFacts.inject_trigram_zero.
Qed.

Lemma injections_additive_witness :
  let L' := Lex.run [Lex.Absorb "the cat sat" "user" 1 0; Lex.Decay;
                     Lex.Absorb "cat sat down" "self" (1#2) 1] Sample.fresh in
  Field.bigram_count (field Sample.fresh) 4 2 ≤ Field.bigram_count (field L') 4 2.
Proof.
  assert (Forall (λ boost, 0 ≤ Num.py_int boost)
            (Lex.boosts_of [Lex.Absorb "the cat sat" "user" 1 0; Lex.Decay;
                            Lex.Absorb "cat sat down" "self" (1#2) 1]))
    as Hcs by (repeat constructor; vm_compute; discriminate).
  pose proof (injections_additive
                [Lex.Absorb "the cat sat" "user" 1 0; Lex.Decay;
                 Lex.Absorb "cat sat down" "self" (1#2) 1]
                Sample.fresh ("the", "cat", "sat") 1 Sample.empty_field)
    as [Hmono _].
  destruct (Hmono Hcs) as [Hb _]. exact (Hb 4 2).
Defined.

(** C5 as stated fails for a negative boost: [int(-2.0)] is [-2], and the
    count of the pair (a, b) falls from 0 to -2. *)
Lemma negative_boost_decrements :
  let L' := (Lex.absorb "a b c" "user" (-2) 0 Sample.fresh).1 in
  Field.bigram_count (field Sample.fresh) 0 1 = 0
  ∧ Field.bigram_count (field L') 0 1 = -2
  ∧ ¬ (Field.bigram_count (field Sample.fresh) 0 1
       ≤ Field.bigram_count (field L') 0 1).
Proof. vm_compute. split_and!; [done | done |]. intros H. by apply H. Qed.






(** C2, as the code has it: on an instance driven by any sequence of
    [absorb] and [decay] calls the key set of [word_weights] is exactly
    [absorbed_words]; and when [decay_rate] is at most 1 and every boost
    passed to [absorb] lies in (0, 2.0], every weight lies in (0, 2.0]. *)
Theorem weights_invariant
    (v : Vocab) (f0 : CooccurField) (rate : Q) (mlen : Z) (cs : list Lex.call) :
  let L := Lex.run cs (Lex.__init__ v f0 rate mlen) in
  dom (word_weights L) = absorbed_words L
  ∧ ((rate <= 1)%Q → Forall Lex.in_range (Lex.boosts_of cs) →
     ∀ w x, word_weights L !! w = Some x → (0 < x)%Q ∧ (x <= 2)%Q).
Proof.
  intros L. split.
  - apply WeightFacts.run_dom. simpl. set_solver.
  - intros Hr Hcs. apply WeightFacts.run_in_range; [done | done |].
    intros w x. simpl. by rewrite lookup_empty.
Qed.

Lemma weights_invariant_witness :
  let L := Lex.run [Lex.Absorb "the cat sat" "user" 1 0; Lex.Decay;
                    Lex.Absorb "The cat returns" "self" 2 1] Sample.fresh in
  word_weights L !! "cat" = Some (Lex.reinforce (1 * 0.99)%Q)
  ∧ (0 < Lex.reinforce (1 * 0.99))%Q ∧ (Lex.reinforce (1 * 0.99) <= 2)%Q.
Proof.
  assert (word_weights
            (Lex.run [Lex.Absorb "the cat sat" "user" 1 0; Lex.Decay;
                      Lex.Absorb "The cat returns" "self" 2 1] Sample.fresh)
            !! "cat" = Some (Lex.reinforce (1 * 0.99)%Q)) as Hcat
    by (by vm_compute).
  split; [exact Hcat |].
  pose proof (weights_invariant Sample.vocab Sample.empty_field 0.99 3
                [Lex.Absorb "the cat sat" "user" 1 0; Lex.Decay;
                 Lex.Absorb "The cat returns" "self" 2 1]) as [_ Hrange].
  apply (Hrange ltac:(by vm_compute)
           ltac:(repeat constructor; by vm_compute) "cat" _ Hcat).
Defined.

(** C2 as stated fails outside these bounds: a word absorbed with boost
    5.0 has weight 5.0, a word absorbed with boost 0.0 has weight 0.0, and
    with [decay_rate] 1.5 a weight of 2.0 decays to 3.0. *)
Lemma boost_sets_weight_out_of_range :
  let L := (Lex.absorb "hello" "user" 5 0 Sample.fresh).1 in
  let L0 := (Lex.absorb "hello" "user" 0 0 Sample.fresh).1 in
  let L1 := Lex.run [Lex.Absorb "hello" "user" 2 0; Lex.Decay]
              (Lex.__init__ Sample.vocab Sample.empty_field 1.5 3) in
  (word_weights L !! "hello" = Some 5%Q ∧ ¬ (5 <= 2)%Q)
  ∧ (word_weights L0 !! "hello" = Some 0%Q ∧ ¬ (0 < 0)%Q)
  ∧ (word_weights L1 !! "hello" = Some (2 * 1.5)%Q ∧ ¬ (2 * 1.5 <= 2)%Q).
Proof.
  vm_compute. split_and!; try done; intros H; by apply H.
Qed.

(** C3, as the code has it: [stats().unique_sources] is the number of
    distinct source tags in the retained history, and the retained
    history holds the records of the last 100 calls of [absorb]; so it
    counts the distinct tags of the last 100 calls, and of all calls as
    long as no more than 100 were made. *)
Theorem unique_sources_retained
    (v : Vocab) (f0 : CooccurField) (rate : Q) (mlen : Z) (cs : list Lex.call) :
  let L := Lex.run cs (Lex.__init__ v f0 rate mlen) in
  source <$> history L = Lex.last_n 100 (Lex.sources_of cs)
  ∧ unique_sources (Lex.stats L)
    = size (list_to_set (Lex.last_n 100 (Lex.sources_of cs)) : gset string)
  ∧ ((length (Lex.sources_of cs) ≤ 100)%nat →
     unique_sources (Lex.stats L)
     = size (list_to_set (Lex.sources_of cs) : gset string)).
Proof.
  intros L.
  pose proof (HistoryFacts.history_sources v f0 rate mlen cs) as Hs.
  fold L in Hs. split_and!.
  - exact Hs.
  - unfold Lex.stats. simpl. by rewrite Hs.
  - intros Hle. unfold Lex.stats. simpl.
    by rewrite Hs, HistoryFacts.last_n_all.
Qed.

Lemma unique_sources_retained_witness :
  let cs := [Lex.Absorb "hello there" "user" 1 0; Lex.Decay;
             Lex.Absorb "general remark" "self" 1 1] in
  unique_sources (Lex.stats (Lex.run cs Sample.fresh)) = 2%nat.
Proof.
  intros cs.
  pose proof (unique_sources_retained Sample.vocab Sample.empty_field 0.99 3 cs)
    as (_ & _ & Hall).
  unfold Sample.fresh. rewrite (Hall ltac:(vm_compute; lia)). by vm_compute.
Defined.

(** C3 as stated fails after more than 100 calls: of 101 calls, the
    first tagged "self" and the others "user", the statistics count one
    source although two were passed. *)
Lemma unique_sources_forgets :
  let cs := Lex.Absorb "" "self" 1 0 :: replicate 100 (Lex.Absorb "" "user" 1 1) in
  unique_sources (Lex.stats (Lex.run cs Sample.fresh)) = 1%nat
  ∧ size (list_to_set (Lex.sources_of cs) : gset string) = 2%nat.
Proof. by vm_compute. Qed.

(** C4, as the code has it: with at least two records in the history,
    [stats().growth_rate] is the sum of [count] over the last
    [min(10, |history|)] records divided by [min(10, |history|)]; with
    fewer than two records it is 0. *)
Theorem growth_rate_recent_mean (L : Lexicon) :
  let h := history L in
  let k := Nat.min 10 (length h) in
  ((2 ≤ length h)%nat →
   growth_rate (Lex.stats L)
   = (inject_Z (Z.of_nat (sum_list (count <$> Lex.last_n k h)))
      / inject_Z (Z.of_nat k))%Q)
  ∧ ((length h < 2)%nat → growth_rate (Lex.stats L) = 0%Q).
Proof.
  intros h k. unfold Lex.stats. cbn [growth_rate]. fold h. split; intros Hn.
  - rewrite (proj2 (Nat.leb_le 2 (length h)) Hn).
    rewrite HistoryFacts.recent_of_last. fold k.
    by rewrite HistoryFacts.total_absorbed_sum, HistoryFacts.length_last_n,
      Nat.min_l by lia.
  - by rewrite (proj2 (Nat.leb_gt 2 (length h)) Hn).
Qed.

Lemma growth_rate_recent_mean_witness :
  let L := Lex.run [Lex.Absorb "the cat sat" "user" 1 0;
                    Lex.Absorb "the cat sat down" "user" 1 1] Sample.fresh in
  growth_rate (Lex.stats L) = (inject_Z 6 / inject_Z 2)%Q.
Proof.
  intros L.
  assert (2 ≤ length (history L))%nat as Hn by (vm_compute; lia).
  pose proof (growth_rate_recent_mean L) as [Hmean _].
  rewrite (Hmean Hn). reflexivity.
Defined.

(** C4 as stated fails on a history of one record: after one call that
    absorbs three words and one trigram the rate is 0.0, not 4/1. *)
Lemma growth_rate_single_record :
  let L := (Lex.absorb "hello big world" "user" 1 0 Sample.fresh).1 in
  let h := history L in
  let k := Nat.min 10 (length h) in
  length h = 1%nat
  ∧ growth_rate (Lex.stats L) = 0%Q
  ∧ (inject_Z (Z.of_nat (sum_list (count <$> Lex.last_n k h)))
     / inject_Z (Z.of_nat k) == 4)%Q
  ∧ ¬ (growth_rate (Lex.stats L)
       == inject_Z (Z.of_nat (sum_list (count <$> Lex.last_n k h)))
          / inject_Z (Z.of_nat k))%Q.
Proof. vm_compute. split_and!; [done | done | done |]. discriminate. Qed.

(** * Further properties of lexicon.py *)

(** ** History and records *)

Module RecordFacts.
Import Lex Trace.

Lemma last_n_app_last {A} (n : nat) (l k : list A) :
  last_n n (last_n n l ++ k) = last_n n (l ++ k).
Proof.
  induction k as [|x k IH] using rev_ind.
  - rewrite !app_nil_r. apply HistoryFacts.last_n_all.
    rewrite HistoryFacts.length_last_n. lia.
  - rewrite !app_assoc.
    rewrite <- (HistoryFacts.last_n_snoc n (last_n n l ++ k)), IH.
    apply HistoryFacts.last_n_snoc.
Qed.

Lemma length_records_of cs : ∀ L,
  length (records_of cs L) = length (sources_of cs).
Proof.
  induction cs as [|c cs IH]; intros L; [done |].
  cbn [records_of]. rewrite length_app, IH.
  unfold sources_of. by destruct c.
Qed.

Lemma history_records cs : ∀ L,
  (length (history L) ≤ 100)%nat →
  history (run cs L) = last_n 100 (history L ++ records_of cs L).
Proof.
  induction cs as [|c cs IH]; intros L HL.
  - simpl. rewrite app_nil_r. by rewrite HistoryFacts.last_n_all.
  - change (run (c :: cs) L) with (run cs (step L c)).
    cbn [records_of]. destruct c as [text src boost now|].
    + rewrite IH.
      * simpl. rewrite LoopFacts.absorb_unfold. cbn [fst snd history].
        rewrite HistoryFacts.push_history_last, last_n_app_last.
        by rewrite <- app_assoc.
      * simpl. rewrite LoopFacts.absorb_unfold. cbn [fst history].
        rewrite HistoryFacts.push_history_last, HistoryFacts.length_last_n. lia.
    + destruct (TrigramFacts.decay_frame L) as (_ & _ & _ & _ & _ & Hh & _).
      rewrite IH; simpl; by rewrite Hh.
Qed.

Section Fresh.
Context `{Countable A}.
Implicit Types (seen : gset A) (l : list A).

Lemma fresh_of_union l seen :
  list_to_set l ∪ seen = list_to_set (fresh_of seen l) ∪ seen.
Proof.
  apply set_eq. intros x.
  rewrite !elem_of_union, !elem_of_list_to_set, LoopFacts.elem_of_fresh_of.
  destruct (decide (x ∈ seen)); naive_solver.
Qed.

Lemma size_fresh_of l seen :
  size (list_to_set l ∪ seen) = (size seen + length (fresh_of seen l))%nat.
Proof.
  rewrite fresh_of_union, size_union.
  - rewrite size_list_to_set by apply LoopFacts.NoDup_fresh_of. lia.
  - intros x Hx%elem_of_list_to_set Hs.
    apply LoopFacts.elem_of_fresh_of in Hx as [_ Hx]. done.
Qed.

Lemma fresh_of_known l seen : (∀ x, x ∈ l → x ∈ seen) → fresh_of seen l = [].
Proof.
  revert seen. induction l as [|y l IH]; intros seen Hl; [done |].
  cbn [fresh_of]. rewrite decide_False.
  - apply IH. intros x Hx. apply Hl. by right.
  - intros Hn. apply Hn, Hl. by left.
Qed.

Lemma length_fresh_of l : ∀ seen, (length (fresh_of seen l) ≤ length l)%nat.
Proof.
  induction l as [|y l IH]; intros seen; [done |].
  cbn [fresh_of]. destruct (decide (y ∉ seen)); simpl.
  - specialize (IH ({[y]} ∪ seen)). lia.
  - specialize (IH seen). lia.
Qed.

Lemma size_list_to_set_le l : (size (list_to_set l : gset A) ≤ length l)%nat.
Proof.
  pose proof (size_fresh_of l ∅) as Hs.
  rewrite (right_id_L ∅ (∪)) in Hs. rewrite Hs, size_empty.
  pose proof (length_fresh_of l ∅). lia.
Qed.

End Fresh.

(** The components of the result of [absorb]. *)
Lemma absorb_record_words text src boost now L :
  words (absorb text src boost now L).2
  = fresh_of (absorbed_words L) (Extract._extract_words (min_word_length L) text).
Proof.
  rewrite LoopFacts.absorb_unfold. cbn [snd words].
  by rewrite LoopFacts.word_loop_new.
Qed.

Lemma absorb_record_trigrams text src boost now L :
  trigrams (absorb text src boost now L).2
  = fresh_of (absorbed_trigrams L) (Extract._extract_trigrams text).
Proof. by rewrite LoopFacts.absorb_unfold. Qed.

Lemma absorb_words_set text src boost now L :
  absorbed_words (absorb text src boost now L).1
  = list_to_set (Extract._extract_words (min_word_length L) text)
    ∪ absorbed_words L.
Proof.
  rewrite LoopFacts.absorb_unfold. cbn [fst absorbed_words].
  apply LoopFacts.word_loop_words.
Qed.

Lemma absorb_trigrams_set text src boost now L :
  absorbed_trigrams (absorb text src boost now L).1
  = list_to_set (Extract._extract_trigrams text) ∪ absorbed_trigrams L.
Proof. by rewrite LoopFacts.absorb_unfold. Qed.

Lemma absorb_weight text src boost now L w :
  word_weights (absorb text src boost now L).1 !! w
  = final_weight boost (bool_decide (w ∈ absorbed_words L))
      (word_weights L !! w)
      (occurrences w (Extract._extract_words (min_word_length L) text)).
Proof.
  rewrite LoopFacts.absorb_unfold. cbn [fst word_weights].
  apply LoopFacts.word_loop_weight.
Qed.

Lemma absorb_field text src boost now L :
  field (absorb text src boost now L).1
  = foldl (λ f tri, Field._inject_trigram (vocab L) tri boost f) (field L)
      (trigrams (absorb text src boost now L).2).
Proof. by rewrite LoopFacts.absorb_unfold. Qed.

Lemma absorb_injections text src boost now L :
  injections (absorb text src boost now L).1
  = injections L
    ++ ((λ tri, (tri, boost)) <$> trigrams (absorb text src boost now L).2).
Proof. by rewrite LoopFacts.absorb_unfold. Qed.

Lemma absorb_history text src boost now L :
  history (absorb text src boost now L).1
  = last_n 100 (history L ++ [(absorb text src boost now L).2]).
Proof.
  rewrite LoopFacts.absorb_unfold. cbn [fst snd history].
  apply HistoryFacts.push_history_last.
Qed.

Lemma history_last_hundred v f rate mlen cs :
  let L0 := __init__ v f rate mlen in
  history (run cs L0) = last_n 100 (records_of cs L0)
  ∧ length (history (run cs L0)) = Nat.min 100 (length (sources_of cs)).
Proof.
  intros L0.
  assert (history (run cs L0) = last_n 100 (records_of cs L0)) as Hh.
  { rewrite history_records by (simpl; lia). done. }
  split; [done |].
  by rewrite Hh, HistoryFacts.length_last_n, length_records_of.
Qed.


End RecordFacts.

(** X1: on an instance driven by any sequence of [absorb] and [decay]
    calls, the history is the list of the records returned by the last
    100 calls of [absorb], in call order; its length is the number of
    [absorb] calls, capped at 100. *)
Theorem history_keeps_last_hundred
    (v : Vocab) (f0 : CooccurField) (rate : Q) (mlen : Z) (cs : list Lex.call) :
  let L0 := Lex.__init__ v f0 rate mlen in
  let L := Lex.run cs L0 in
  history L = Lex.last_n 100 (Trace.records_of cs L0)
  ∧ length (history L) = Nat.min 100 (length (Lex.sources_of cs))
  ∧ (length (history L) ≤ 100)%nat.
Proof.
  intros L0 L.
  destruct (RecordFacts.history_last_hundred v f0 rate mlen cs) as [Hh Hl].
  fold L0 L in Hh, Hl. split_and!; [done | done | lia].
Qed.

(** X2: the record returned by [absorb] lists, without repetition, exactly
    the extracted words that were not absorbed before and exactly the
    extracted trigrams that were not absorbed before; its [count] is the
    growth of [total_words + total_trigrams] caused by the call. *)
Theorem record_reports_growth
    (text src : string) (boost now : Q) (L : Lexicon) :
  let L' := (Lex.absorb text src boost now L).1 in
  let record := (Lex.absorb text src boost now L).2 in
  NoDup (words record) ∧ NoDup (trigrams record)
  ∧ (∀ w, w ∈ words record
          ↔ w ∈ Extract._extract_words (min_word_length L) text
            ∧ w ∉ absorbed_words L)
  ∧ (∀ t, t ∈ trigrams record
          ↔ t ∈ Extract._extract_trigrams text ∧ t ∉ absorbed_trigrams L)
  ∧ size (absorbed_words L')
    = (size (absorbed_words L) + length (words record))%nat
  ∧ size (absorbed_trigrams L')
    = (size (absorbed_trigrams L) + length (trigrams record))%nat
  ∧ (total_words (Lex.stats L') + total_trigrams (Lex.stats L'))%nat
    = (total_words (Lex.stats L) + total_trigrams (Lex.stats L)
       + count record)%nat.
Proof.
  intros L' record. unfold L', record.
  rewrite RecordFacts.absorb_record_words, RecordFacts.absorb_record_trigrams.
  assert (size (absorbed_words (Lex.absorb text src boost now L).1)
          = (size (absorbed_words L)
             + length (Lex.fresh_of (absorbed_words L)
                         (Extract._extract_words (min_word_length L) text)))%nat)
    as Hw.
  { rewrite RecordFacts.absorb_words_set. apply RecordFacts.size_fresh_of. }
  assert (size (absorbed_trigrams (Lex.absorb text src boost now L).1)
          = (size (absorbed_trigrams L)
             + length (Lex.fresh_of (absorbed_trigrams L)
                         (Extract._extract_trigrams text)))%nat)
    as Ht.
  { rewrite RecordFacts.absorb_trigrams_set. apply RecordFacts.size_fresh_of. }
  split_and!.
  - apply LoopFacts.NoDup_fresh_of.
  - apply LoopFacts.NoDup_fresh_of.
  - intros w. apply LoopFacts.elem_of_fresh_of.
  - intros t. apply LoopFacts.elem_of_fresh_of.
  - exact Hw.
  - exact Ht.
  - unfold Lex.stats, count. cbn [total_words total_trigrams].
    rewrite Hw, Ht, RecordFacts.absorb_record_words,
      RecordFacts.absorb_record_trigrams. lia.
Qed.

(** X3: on an instance driven by any sequence of [absorb] and [decay]
    calls, [stats()] reports as [recent_absorptions] the number of
    [absorb] calls capped at 100, as [total_words] the number of weight
    entries, as [total_trigrams] the number of calls of [_inject_trigram]
    made so far, and never more [unique_sources] than
    [recent_absorptions]. *)
Theorem stats_counts
    (v : Vocab) (f0 : CooccurField) (rate : Q) (mlen : Z) (cs : list Lex.call) :
  let L := Lex.run cs (Lex.__init__ v f0 rate mlen) in
  recent_absorptions (Lex.stats L) = Nat.min 100 (length (Lex.sources_of cs))
  ∧ total_words (Lex.stats L) = size (word_weights L)
  ∧ total_trigrams (Lex.stats L) = length (injections L)
  ∧ (unique_sources (Lex.stats L) ≤ recent_absorptions (Lex.stats L))%nat
  ∧ (recent_absorptions (Lex.stats L) ≤ 100)%nat.
Proof.
  intros L.
  destruct (RecordFacts.history_last_hundred v f0 rate mlen cs) as [_ Hlen].
  fold L in Hlen.
  assert (recent_absorptions (Lex.stats L) ≤ 100)%nat as Hle.
  { unfold Lex.stats. cbn [recent_absorptions]. lia. }
  assert (Lex.trace_inv L) as [Hnd Hset].
  { apply TrigramFacts.trace_inv_run, TrigramFacts.trace_inv_init. }
  unfold Lex.stats. cbn [recent_absorptions total_words total_trigrams unique_sources].
  split_and!.
  - exact Hlen.
  - pose proof (WeightFacts.run_dom cs (Lex.__init__ v f0 rate mlen)) as Hdom.
    fold L in Hdom. rewrite <- Hdom; [apply size_dom | simpl; set_solver].
  - replace (absorbed_trigrams L) with (list_to_set (injections L).*1 : gset trigram).
    + rewrite size_list_to_set by done. by rewrite length_fmap.
    + apply set_eq. intros t. rewrite elem_of_list_to_set. apply Hset.
  - etrans; [apply RecordFacts.size_list_to_set_le |]. by rewrite length_fmap.
  - exact Hle.
Qed.

(** X4: absorbing the same text a second time, with any source, boost and
    time, reports nothing: the second record has no words and no
    trigrams, the word and trigram sets, the co-occurrence store and the
    injection trace are unchanged, and each word of the text is
    reinforced once per occurrence. *)
Theorem reabsorb_reports_nothing
    (text src1 src2 : string) (boost1 now1 boost2 now2 : Q) (L : Lexicon) :
  let ws := Extract._extract_words (min_word_length L) text in
  let L1 := (Lex.absorb text src1 boost1 now1 L).1 in
  let L2 := (Lex.absorb text src2 boost2 now2 L1).1 in
  let record := (Lex.absorb text src2 boost2 now2 L1).2 in
  words record = [] ∧ trigrams record = [] ∧ count record = 0%nat
  ∧ absorbed_words L2 = absorbed_words L1
  ∧ absorbed_trigrams L2 = absorbed_trigrams L1
  ∧ field L2 = field L1
  ∧ injections L2 = injections L1
  ∧ (∀ w, w ∈ ws →
       word_weights L2 !! w
       = Some (Nat.iter (Lex.occurrences w ws) Lex.reinforce
                 (default 1%Q (word_weights L1 !! w)))).
Proof.
  intros ws L1 L2 record.
  assert (min_word_length L1 = min_word_length L) as Hlen.
  { by destruct (TrigramFacts.absorb_frame text src1 boost1 now1 L) as (_ & _ & ?). }
  assert (∀ w, w ∈ ws → w ∈ absorbed_words L1) as Hknown.
  { intros w Hw. unfold L1. rewrite RecordFacts.absorb_words_set. set_solver. }
  assert (words record = []) as Hwords.
  { unfold record. rewrite RecordFacts.absorb_record_words, Hlen.
    by apply RecordFacts.fresh_of_known. }
  assert (trigrams record = []) as Htris.
  { unfold record. rewrite RecordFacts.absorb_record_trigrams.
    apply RecordFacts.fresh_of_known. intros t Ht. unfold L1.
    rewrite RecordFacts.absorb_trigrams_set. set_solver. }
  split_and!.
  - exact Hwords.
  - exact Htris.
  - unfold count. by rewrite Hwords, Htris.
  - unfold L2. rewrite RecordFacts.absorb_words_set, Hlen. fold ws. set_solver.
  - unfold L2. rewrite RecordFacts.absorb_trigrams_set. unfold L1.
    rewrite RecordFacts.absorb_trigrams_set. set_solver.
  - unfold L2. rewrite RecordFacts.absorb_field. fold record. by rewrite Htris.
  - unfold L2. rewrite RecordFacts.absorb_injections. fold record.
    rewrite Htris. apply app_nil_r.
  - intros w Hw. unfold L2. rewrite RecordFacts.absorb_weight, Hlen. fold ws.
    rewrite bool_decide_eq_true_2 by auto.
    apply LoopFacts.occurrences_pos in Hw.
    by destruct (Lex.occurrences w ws) as [|k]; [lia |].
Qed.

(** ** Texts and words *)

Module TextFacts.
Import Extract Lex Trace.










End TextFacts.

(** X5: [absorb] touches only the words of the text: a word that is not
    among the extracted words keeps its weight entry (or its absence) and
    its membership in [absorbed_words]; no absorbed word and no absorbed
    trigram is dropped by [absorb]. *)
Theorem absorb_leaves_other_words
    (text src : string) (boost now : Q) (L : Lexicon) (w : string) :
  let L' := (Lex.absorb text src boost now L).1 in
  w ∉ Extract._extract_words (min_word_length L) text →
  word_weights L' !! w = word_weights L !! w
  ∧ (w ∈ absorbed_words L' ↔ w ∈ absorbed_words L)
  ∧ absorbed_words L ⊆ absorbed_words L'
  ∧ absorbed_trigrams L ⊆ absorbed_trigrams L'.
Proof.
  intros L' Hout. unfold L'. split_and!.
  - rewrite RecordFacts.absorb_weight.
    destruct (Lex.occurrences w _) as [|k] eqn:Hocc; [done |].
    destruct Hout. apply LoopFacts.occurrences_pos. lia.
  - rewrite RecordFacts.absorb_words_set. set_solver.
  - rewrite RecordFacts.absorb_words_set. set_solver.
  - rewrite RecordFacts.absorb_trigrams_set. set_solver.
Qed.

Lemma absorb_leaves_other_words_witness :
  let L := (Lex.absorb "the cat sat" "user" 1 0 Sample.fresh).1 in
  let L' := (Lex.absorb "a dog ran" "user" 2 1 L).1 in
  word_weights L' !! "cat" = Some 1%Q.
Proof.
  intros L L'. unfold L'.
  assert ("cat" ∉ Extract._extract_words (min_word_length L) "a dog ran") as Hout.
  { vm_compute. intros Hin. repeat (apply elem_of_cons in Hin as [Heq|Hin];
      [discriminate Heq |]). by apply elem_of_nil in Hin. }
  destruct (absorb_leaves_other_words "a dog ran" "user" 2 1 L "cat" Hout)
    as [Hw _].
  rewrite Hw. by vm_compute.
Defined.






(** ** More on decay *)

Module ForgetFacts.
Import Lex Trace.

(** After [decay] no weight is below the threshold. *)
Lemma decay_floor L w x :
  word_weights (decay L).1 !! w = Some x → (0.1 <= x)%Q.
Proof.
  rewrite DecayFacts.decay_lookup.
  destruct (word_weights L !! w) as [y|]; [| done].
  destruct (decide (fades (decay_rate L) (w, y))) as [Hf|Hf]; [done |].
  intros [= <-]. unfold fades in Hf. simpl in Hf.
  by apply not_true_is_false, NumFacts.Qltb_ge in Hf.
Qed.

(** The entries of [word_weights] split into those that fade and those
    that stay. *)
Lemma decay_size L :
  size (word_weights L) = (size (word_weights (decay L).1) + (decay L).2)%nat.
Proof.
  destruct (DecayFacts.decay_spec L) as (-> & _ & ->).
  rewrite map_size_fmap.
  rewrite <- (map_filter_union_complement (fades (decay_rate L)) (word_weights L))
    at 1.
  rewrite map_size_disj_union by apply map_disjoint_filter_complement. lia.
Qed.

Lemma decays_succ n L : decays (S n) L = (decay (decays n L)).1.
Proof. reflexivity. Qed.

Lemma decays_rate n L : decay_rate (decays n L) = decay_rate L.
Proof.
  induction n as [|n IH]; [done |]. rewrite decays_succ.
  destruct (TrigramFacts.decay_frame (decays n L)) as (_ & _ & -> & _). exact IH.
Qed.

Lemma decays_dom n L :
  dom (word_weights L) = absorbed_words L →
  dom (word_weights (decays n L)) = absorbed_words (decays n L).
Proof.
  intros HL. induction n as [|n IH]; [done |].
  rewrite decays_succ. by apply WeightFacts.decay_dom.
Qed.

(** A finite map of weights has an upper bound. *)
Lemma weights_have_bound (m : gmap string Q) :
  ∃ B, (0 <= B)%Q ∧ ∀ w x, m !! w = Some x → (x <= B)%Q.
Proof.
  induction m as [|k y m Hk [B [HB Hm]]] using map_ind.
  - exists 0%Q. split; [lra |]. intros w x. by rewrite lookup_empty.
  - destruct (Qlt_le_dec B y) as [Hlt|Hle].
    + exists y. split; [lra |]. intros w x.
      destruct (decide (k = w)) as [->|Hne].
      * rewrite lookup_insert_eq. intros [= <-]. lra.
      * rewrite lookup_insert_ne by done. intros Hx.
        specialize (Hm w x Hx). lra.
    + exists B. split; [done |]. intros w x.
      destruct (decide (k = w)) as [->|Hne].
      * rewrite lookup_insert_eq. by intros [= <-].
      * rewrite lookup_insert_ne by done. apply Hm.
Qed.

(** [k] decays scale a bound by the [k]-th power of the rate. *)
Lemma decays_bound L B :
  (0 <= decay_rate L)%Q →
  (∀ w x, word_weights L !! w = Some x → (x <= B)%Q) →
  ∀ k w x, word_weights (decays k L) !! w = Some x →
           (x <= Nat.iter k (λ b, b * decay_rate L) B)%Q.
Proof.
  intros Hr HB k. induction k as [|k IH]; intros w x; [apply HB |].
  rewrite decays_succ, DecayFacts.decay_lookup, decays_rate.
  destruct (word_weights (decays k L) !! w) as [y|] eqn:Hy; [| done].
  destruct (decide _); [done |]. intros [= <-].
  cbn [Nat.iter nat_rect]. apply Qmult_le_compat_r; [| done]. by eapply IH.
Qed.

(** Bernoulli's bound for the powers of a rate in [0, 1]. *)
Lemma power_bound (r B : Q) (k : nat) :
  (0 <= r)%Q → (r <= 1)%Q → (0 <= B)%Q →
  (0 <= Nat.iter k (λ b, b * r) B)%Q
  ∧ (Nat.iter k (λ b, b * r) B * (r + inject_Z (Z.of_nat k) * (1 - r))
     <= B * r)%Q.
Proof.
  intros Hr0 Hr1 HB. induction k as [|k [IH0 IH]].
  - cbn [Nat.iter nat_rect]. change (inject_Z (Z.of_nat 0)) with 0%Q.
    split; [done |]. lra.
  - rewrite Nat.iter_succ. set (b := Nat.iter k (λ b, (b * r)%Q) B) in *.
    assert (0 <= inject_Z (Z.of_nat k))%Q as HK.
    { change 0%Q with (inject_Z 0). rewrite <- Zle_Qle. lia. }
    set (K := inject_Z (Z.of_nat k)) in *.
    split; [by apply Qmult_le_0_compat |].
    rewrite WeightFacts.inject_nat_succ. fold K.
    assert (0 <= b * K * (1 - r) * (1 - r))%Q as Hprod.
    { repeat apply Qmult_le_0_compat; lra. }
    assert (b * r * (r + (K + 1) * (1 - r))
            == b * (r + K * (1 - r)) - b * K * (1 - r) * (1 - r))%Q as Heq
      by ring.
    rewrite Heq. lra.
Qed.

(** The powers of a rate below 1 fall under every positive threshold. *)
Lemma power_vanishes (r B eps : Q) :
  (0 <= r)%Q → (r < 1)%Q → (0 <= B)%Q → (0 < eps)%Q →
  ∃ n, ∀ k, (n ≤ k)%nat → (Nat.iter k (λ b, b * r) B < eps)%Q.
Proof.
  intros Hr0 Hr1 HB Heps.
  set (d := (eps * (1 - r))%Q).
  assert (0 < d)%Q as Hd by (apply Qmult_lt_0_compat; lra).
  exists (S (Z.to_nat (Qceiling (B * r / d)))). intros k Hk.
  destruct (power_bound r B k) as [Hb0 Hb]; [lra | lra | done |].
  set (b := Nat.iter k (λ b, (b * r)%Q) B) in *.
  assert (B * r / d < inject_Z (Z.of_nat k))%Q as Hq.
  { pose proof (Qle_ceiling (B * r / d)) as Hc.
    assert (inject_Z (Qceiling (B * r / d)) + 1 <= inject_Z (Z.of_nat k))%Q.
    { change 1%Q with (inject_Z 1). rewrite <- inject_Z_plus, <- Zle_Qle. lia. }
    lra. }
  assert (B * r < inject_Z (Z.of_nat k) * d)%Q as Hq'.
  { apply (Qmult_lt_compat_r _ _ d Hd) in Hq.
    assert (B * r / d * d == B * r)%Q as Heq by (field; lra).
    lra. }
  set (K := inject_Z (Z.of_nat k)) in *.
  assert (0 < r + K * (1 - r))%Q as Hpos.
  { assert (0 <= B * r)%Q by (apply Qmult_le_0_compat; lra).
    assert (0 < K * d)%Q by lra.
    assert (0 < K)%Q.
    { destruct (Qlt_le_dec 0 K) as [?|Hle]; [done |].
      assert (K * d <= 0 * d)%Q by (apply Qmult_le_compat_r; lra). lra. }
    assert (0 < K * (1 - r))%Q by (apply Qmult_lt_0_compat; lra). lra. }
  assert (b * (r + K * (1 - r)) < eps * (r + K * (1 - r)))%Q as Hlt.
  { assert (0 <= eps * r)%Q by (apply Qmult_le_0_compat; lra).
    unfold d in Hq'. lra. }
  by apply Qmult_lt_r in Hlt.
Qed.

End ForgetFacts.

(** X9: right after [decay] every remaining weight is at least 0.1; no
    word is added; the number of weight entries drops by exactly the
    returned count; and when the weight entries are those of the absorbed
    words, [total_words] drops by the returned count. *)
Theorem decay_count_is_the_drop (L : Lexicon) :
  let L' := (Lex.decay L).1 in
  (∀ w x, word_weights L' !! w = Some x → (0.1 <= x)%Q)
  ∧ absorbed_words L' ⊆ absorbed_words L
  ∧ dom (word_weights L') ⊆ dom (word_weights L)
  ∧ size (word_weights L) = (size (word_weights L') + (Lex.decay L).2)%nat
  ∧ (dom (word_weights L) = absorbed_words L →
     total_words (Lex.stats L)
     = (total_words (Lex.stats L') + (Lex.decay L).2)%nat).
Proof.
  intros L'. split_and!.
  - apply ForgetFacts.decay_floor.
  - intros w Hw. by apply DecayFacts.decay_words in Hw as [Hw _].
  - intros w. rewrite !elem_of_dom. unfold L'.
    rewrite DecayFacts.decay_lookup.
    destruct (word_weights L !! w); [done | by intros [? ?]].
  - apply ForgetFacts.decay_size.
  - intros Hdom. unfold L', Lex.stats. cbn [total_words].
    rewrite <- Hdom, <- (WeightFacts.decay_dom L Hdom), !size_dom.
    apply ForgetFacts.decay_size.
Qed.

Lemma decay_count_is_the_drop_witness :
  let L := Lex.run [Lex.Absorb "faint words" "user" (1#10) 0;
                    Lex.Absorb "strong" "user" 1 1] Sample.fresh in
  total_words (Lex.stats L) = (total_words (Lex.stats (Lex.decay L).1) + 2)%nat.
Proof.
  intros L.
  destruct (decay_count_is_the_drop L) as (_ & _ & _ & _ & Hdrop).
  rewrite (Hdrop ltac:(by vm_compute)). by vm_compute.
Defined.

(** X10: [decay] changes nothing but [absorbed_words] and [word_weights]:
    the trigram set, the co-occurrence store, the history, the injection
    trace, the corpus vocabulary and the parameters stay as they are, and
    so do all statistics except [total_words]. *)
Theorem decay_touches_words_only (L : Lexicon) :
  let L' := (Lex.decay L).1 in
  (vocab L' = vocab L ∧ field L' = field L ∧ decay_rate L' = decay_rate L
   ∧ min_word_length L' = min_word_length L
   ∧ absorbed_trigrams L' = absorbed_trigrams L
   ∧ history L' = history L ∧ injections L' = injections L
   ∧ corpus_words L' = corpus_words L)
  ∧ total_trigrams (Lex.stats L') = total_trigrams (Lex.stats L)
  ∧ unique_sources (Lex.stats L') = unique_sources (Lex.stats L)
  ∧ recent_absorptions (Lex.stats L') = recent_absorptions (Lex.stats L)
  ∧ growth_rate (Lex.stats L') = growth_rate (Lex.stats L).
Proof.
  intros L'.
  assert (vocab L' = vocab L ∧ field L' = field L ∧ decay_rate L' = decay_rate L
          ∧ min_word_length L' = min_word_length L
          ∧ absorbed_trigrams L' = absorbed_trigrams L
          ∧ history L' = history L ∧ injections L' = injections L
          ∧ corpus_words L' = corpus_words L) as Hframe.
  { unfold L', Lex.decay.
    destruct (foldl (Lex.decay_scan (decay_rate L)) _ _) as [[ww rm] d].
    destruct (foldl Lex.decay_remove _ _) as [aw ww'].
    by repeat split. }
  split; [exact Hframe |].
  destruct Hframe as (_ & _ & _ & _ & Hat & Hh & _).
  unfold Lex.stats.
  cbn [total_trigrams unique_sources recent_absorptions growth_rate].
  by rewrite Hat, Hh.
Qed.

(** X11: with a decay rate in [0, 1), decay does prevent unbounded
    accumulation: from any state there is a number of consecutive [decay]
    calls after which, and after any larger number, no weight entry is
    left, and no absorbed word when the weight entries are those of the
    absorbed words. *)
Theorem decay_forgets_everything (L : Lexicon) :
  (0 <= decay_rate L)%Q → (decay_rate L < 1)%Q →
  ∃ n, ∀ m, (n ≤ m)%nat →
    word_weights (Trace.decays m L) = ∅
    ∧ (dom (word_weights L) = absorbed_words L →
       absorbed_words (Trace.decays m L) = ∅).
Proof.
  intros Hr0 Hr1.
  destruct (ForgetFacts.weights_have_bound (word_weights L)) as (B & HB & Hle).
  destruct (ForgetFacts.power_vanishes (decay_rate L) B 0.1 Hr0 Hr1 HB)
    as [n Hn]; [lra |].
  exists (S n). intros m Hm.
  assert (word_weights (Trace.decays m L) = ∅) as Hempty.
  { apply map_empty. intros w.
    destruct (word_weights (Trace.decays m L) !! w) as [x|] eqn:Hx; [| done].
    exfalso.
    pose proof (ForgetFacts.decays_bound L B Hr0 Hle m w x Hx) as Hup.
    specialize (Hn m ltac:(lia)).
    destruct m as [|m]; [lia |].
    rewrite ForgetFacts.decays_succ in Hx.
    apply ForgetFacts.decay_floor in Hx. lra. }
  split; [exact Hempty |]. intros Hdom.
  rewrite <- (ForgetFacts.decays_dom m L Hdom), Hempty. apply dom_empty_L.
Qed.

Lemma decay_forgets_everything_witness :
  ∃ n, ∀ m, (n ≤ m)%nat →
    word_weights
      (Trace.decays m (Lex.absorb "the cat sat" "user" 1 0 Sample.fresh).1) = ∅.
Proof.
  destruct (decay_forgets_everything
              (Lex.absorb "the cat sat" "user" 1 0 Sample.fresh).1)
    as [n Hn]; [by vm_compute | by vm_compute |].
  exists n. intros m Hm. by destruct (Hn m Hm) as [Hempty _].
Defined.

(** ** Resonant words *)

Module QueryFacts.
Import Query.

Implicit Types (x y : string * Q) (l : list (string * Q)).

Lemma insert_desc_perm x l : insert_desc x l ≡ₚ x :: l.
Proof.
  induction l as [|y l IH]; [done |]. cbn [insert_desc].
  destruct (Num.Qltb x.2 y.2); [| done].
  rewrite IH. apply Permutation_swap.
Qed.

Lemma sorted_desc_perm l : sorted_desc l ≡ₚ l.
Proof.
  induction l as [|x l IH]; [done |].
  cbn [sorted_desc foldr]. fold (sorted_desc l).
  by rewrite insert_desc_perm, IH.
Qed.

Lemma insert_desc_descending x l : descending l → descending (insert_desc x l).
Proof.
  induction l as [|y l IH]; intros Hl; cbn [insert_desc].
  - by split.
  - destruct Hl as [Hy Hl].
    destruct (Num.Qltb x.2 y.2) eqn:Hxy.
    + apply NumFacts.Qltb_lt in Hxy. split; [| by apply IH].
      rewrite insert_desc_perm. constructor; [by apply Qlt_le_weak | done].
    + apply NumFacts.Qltb_ge in Hxy. split; [| by split].
      constructor; [done |].
      eapply Forall_impl; [exact Hy |]. intros z Hz. simpl in Hz.
      by apply (Qle_trans _ y.2).
Qed.

Lemma sorted_desc_descending l : descending (sorted_desc l).
Proof.
  induction l as [|x l IH]; [done |].
  cbn [sorted_desc foldr]. by apply insert_desc_descending.
Qed.

Lemma descending_app (p q : list (string * Q)) :
  descending (p ++ q) →
  descending p ∧ ∀ a b, a ∈ p → b ∈ q → (b.2 <= a.2)%Q.
Proof.
  induction p as [|x p IH]; intros Hd.
  - split; [done |]. by intros a b ?%elem_of_nil.
  - destruct Hd as [Hx Hd]. apply IH in Hd as [Hp Hpq].
    apply Forall_app in Hx as [Hxp Hxq]. split; [by split |].
    intros a b [->|Ha]%elem_of_cons Hb; [| by apply Hpq].
    rewrite Forall_forall in Hxq. by apply Hxq.
Qed.

Lemma descending_lookup l i j a b :
  descending l → (i < j)%nat → l !! i = Some a → l !! j = Some b →
  (b.2 <= a.2)%Q.
Proof.
  revert i j. induction l as [|x l IH]; intros i j Hd Hij Ha Hb; [done |].
  destruct Hd as [Hx Hd]. destruct j as [|j]; [lia |].
  destruct i as [|i].
  - injection Ha as <-. rewrite Forall_forall in Hx. apply Hx.
    by eapply list_elem_of_lookup_2.
  - apply (IH i j); [done | lia | done | done].
Qed.




(** Every slice [l[:n]] is a prefix. *)
Lemma py_prefix_take {A} (n : Z) (l : list A) :
  ∃ m, py_prefix n l = take m l
       ∧ length (py_prefix n l)
         = if 0 <=? n then Nat.min (Z.to_nat n) (length l)
           else (length l - Z.to_nat (- n))%nat.
Proof.
  unfold py_prefix. destruct (0 <=? n).
  - exists (Z.to_nat n). split; [done |]. by rewrite length_take.
  - exists (length l - Z.to_nat (- n))%nat. split; [done |].
    rewrite length_take. lia.
Qed.

End QueryFacts.

(** X12: [get_resonant_words(n)] returns a prefix of the weight entries
    sorted by descending weight: [min(n, number of entries)] words for
    [n >= 0] and all but the last [-n] for a negative [n]; the words are
    distinct keys of [word_weights], their weights do not increase along
    the list, and no word left out weighs more than a returned one. *)
Theorem resonant_words_are_the_heaviest
    (L : Lexicon) (items : list (string * Q)) (n : Z) :
  let res := Query.get_resonant_words items n in
  Query.items_of L items →
  length res
  = (if 0 <=? n then Nat.min (Z.to_nat n) (size (word_weights L))
     else (size (word_weights L) - Z.to_nat (- n))%nat)
  ∧ NoDup res
  ∧ (∀ w, w ∈ res → is_Some (word_weights L !! w))
  ∧ (∀ i j w1 w2 x1 x2, (i < j)%nat → res !! i = Some w1 → res !! j = Some w2 →
       word_weights L !! w1 = Some x1 → word_weights L !! w2 = Some x2 →
       (x2 <= x1)%Q)
  ∧ (∀ w1 w2 x1 x2, w1 ∈ res → w2 ∉ res →
       word_weights L !! w1 = Some x1 → word_weights L !! w2 = Some x2 →
       (x2 <= x1)%Q).
Proof.
  intros res Hitems. unfold Query.items_of in Hitems.
  set (sorted := Query.sorted_desc items).
  assert (sorted ≡ₚ map_to_list (word_weights L)) as Hperm.
  { unfold sorted. by rewrite QueryFacts.sorted_desc_perm. }
  assert (∀ w x, (w, x) ∈ sorted ↔ word_weights L !! w = Some x) as Hin.
  { intros w x. rewrite Hperm. apply elem_of_map_to_list. }
  assert (NoDup sorted.*1) as Hnd.
  { rewrite Hperm. apply NoDup_fst_map_to_list. }
  assert (length sorted = size (word_weights L)) as Hlen.
  { rewrite Hperm. apply length_map_to_list. }
  pose proof (QueryFacts.sorted_desc_descending items) as Hdesc. fold sorted in Hdesc.
  destruct (QueryFacts.py_prefix_take n sorted) as (m & Hm & Hpl).
  assert (res = (take m sorted).*1) as Hres.
  { unfold res, Query.get_resonant_words. fold sorted. by rewrite Hm. }
  rewrite <- (take_drop m sorted) in Hdesc.
  apply QueryFacts.descending_app in Hdesc as [Hp Hpq].
  assert (∀ w x, word_weights L !! w = Some x → w ∈ res → (w, x) ∈ take m sorted)
    as Hback.
  { intros w x Hw Hr. rewrite Hres in Hr.
    apply list_elem_of_fmap in Hr as ([w' x'] & -> & Hr).
    assert ((w', x') ∈ sorted) as Hs by (eapply elem_of_sublist, sublist_take; done).
    apply Hin in Hs. simpl in Hw. by replace x with x' by congruence. }
  split_and!.
  - unfold res, Query.get_resonant_words. fold sorted.
    by rewrite length_fmap, Hpl, Hlen.
  - rewrite Hres. eapply sublist_NoDup; [exact Hnd |].
    apply fmap_sublist, sublist_take.
  - intros w Hw. rewrite Hres in Hw.
    apply list_elem_of_fmap in Hw as ([w' x'] & -> & Hw).
    exists x'. apply Hin. eapply elem_of_sublist, sublist_take; done.
  - intros i j w1 w2 x1 x2 Hij H1 H2 Hx1 Hx2.
    rewrite Hres, list_lookup_fmap in H1, H2.
    destruct (take m sorted !! i) as [[a xa]|] eqn:Ha; [| done].
    destruct (take m sorted !! j) as [[b xb]|] eqn:Hb; [| done].
    simpl in H1, H2. injection H1 as ->. injection H2 as ->.
    assert (xa = x1) as <-.
    { apply list_elem_of_lookup_2 in Ha.
      assert ((w1, xa) ∈ sorted) as Hs by (eapply elem_of_sublist, sublist_take; done).
      apply Hin in Hs. congruence. }
    assert (xb = x2) as <-.
    { apply list_elem_of_lookup_2 in Hb.
      assert ((w2, xb) ∈ sorted) as Hs by (eapply elem_of_sublist, sublist_take; done).
      apply Hin in Hs. congruence. }
    apply (QueryFacts.descending_lookup _ i j (w1, xa) (w2, xb) Hp Hij Ha Hb).
  - intros w1 w2 x1 x2 Hr1 Hr2 Hx1 Hx2.
    pose proof (Hback w1 x1 Hx1 Hr1) as H1.
    assert ((w2, x2) ∈ drop m sorted) as H2.
    { apply Hin in Hx2. rewrite <- (take_drop m sorted) in Hx2.
      apply elem_of_app in Hx2 as [Hx2|Hx2]; [| done].
      destruct Hr2. rewrite Hres. apply list_elem_of_fmap. by exists (w2, x2). }
    apply (Hpq (w1, x1) (w2, x2) H1 H2).
Qed.

Lemma resonant_words_are_the_heaviest_witness :
  let L := Lex.run [Lex.Absorb "alpha beta gamma" "user" 1 0;
                    Lex.Absorb "beta gamma" "user" 1 1;
                    Lex.Absorb "gamma" "user" 1 2] Sample.fresh in
  length (Query.get_resonant_words (map_to_list (word_weights L)) 2) = 2%nat.
Proof.
  intros L.
  destruct (resonant_words_are_the_heaviest L (map_to_list (word_weights L)) 2)
    as [Hlen _]; [unfold Query.items_of; reflexivity |].
  rewrite Hlen. by vm_compute.
Defined.



(** ** The store after a run of injections *)

Module StoreFacts.
Import Field Trace.

Lemma times_app {A} `{EqDecision A} (x : A) (l k : list A) :
  times x (l ++ k) = times x l + times x k.
Proof. unfold times. rewrite filter_app, length_app. lia. Qed.

Lemma times_nil {A} `{EqDecision A} (x : A) : times x [] = 0.
Proof. reflexivity. Qed.

Lemma times_cons {A} `{EqDecision A} (x y : A) (l : list A) :
  times x (y :: l) = (if decide (y = x) then 1 else 0) + times x l.
Proof.
  unfold times. rewrite filter_cons. destruct (decide (y = x)); simpl; lia.
Qed.

(** One injection adds [int(weight)] once per listed pair and triple. *)
Lemma inject_one v tri weight f :
  (∀ a b, bigram_count (_inject_trigram v tri weight f) a b
          = bigram_count f a b + Num.py_int weight * times (a, b) (pairs_of v tri))
  ∧ (∀ a b c, trigram_count (_inject_trigram v tri weight f) a b c
              = trigram_count f a b c
                + Num.py_int weight * times (a, b, c) (triples_of v tri)).
Proof.
  unfold pairs_of, triples_of. cbv zeta.
  destruct (is_empty (encode v tri.1.1) || is_empty (encode v tri.1.2)
            || is_empty (encode v tri.2)) eqn:Hany.
  - assert (_inject_trigram v tri weight f = f) as ->.
    { unfold _inject_trigram. by rewrite Hany. }
    split; intros; rewrite times_nil; lia.
  - apply orb_false_iff in Hany as [Hany H3].
    apply orb_false_iff in Hany as [H1 H2].
    destruct (FieldFacts.inject_trigram_counts v tri weight f) as [Hb Ht].
    { by destruct (encode v tri.1.1). }
    { by destruct (encode v tri.1.2). }
    { by destruct (encode v tri.2). }
    split.
    + intros a b. rewrite Hb, !times_cons, times_nil.
      repeat case_decide; simplify_eq; try lia; exfalso; intuition congruence.
    + intros a b c. rewrite Ht, times_cons, times_nil.
      repeat case_decide; simplify_eq; try lia; exfalso; intuition congruence.
Qed.

Lemma inject_all v weight (l : list trigram) : ∀ f,
  let f' := foldl (λ f tri, _inject_trigram v tri weight f) f l in
  (∀ a b, bigram_count f' a b
          = bigram_count f a b
            + Num.py_int weight * times (a, b) (l ≫= pairs_of v))
  ∧ (∀ a b c, trigram_count f' a b c
              = trigram_count f a b c
                + Num.py_int weight * times (a, b, c) (l ≫= triples_of v)).
Proof.
  induction l as [|t l IH]; intros f; cbv zeta.
  - simpl. split; intros; rewrite times_nil; lia.
  - cbn [foldl]. destruct (IH (_inject_trigram v t weight f)) as [IHb IHt].
    destruct (inject_one v t weight f) as [Hb Ht].
    split.
    + intros a b. rewrite IHb, Hb, bind_cons, times_app. lia.
    + intros a b c. rewrite IHt, Ht, bind_cons, times_app. lia.
Qed.

End StoreFacts.

(** X14: after [absorb], every pair count of the store is its old value
    plus [int(boost)] times the number of times the pair is the
    (last token, first token) junction of two neighbouring words of a
    newly absorbed, fully encodable trigram, and every triple count is
    its old value plus [int(boost)] times the number of such trigrams
    with that (last(w1), first(w2), last(w2)); no other count changes. *)
Theorem store_counts_after_absorb
    (text src : string) (boost now : Q) (L : Lexicon) (a b c : Z) :
  let L' := (Lex.absorb text src boost now L).1 in
  let record := (Lex.absorb text src boost now L).2 in
  Field.bigram_count (field L') a b
  = Field.bigram_count (field L) a b
    + Num.py_int boost
      * Trace.times (a, b) (trigrams record ≫= Trace.pairs_of (vocab L))
  ∧ Field.trigram_count (field L') a b c
    = Field.trigram_count (field L) a b c
      + Num.py_int boost
        * Trace.times (a, b, c) (trigrams record ≫= Trace.triples_of (vocab L)).
Proof.
  intros L' record. unfold L'. rewrite RecordFacts.absorb_field. fold record.
  destruct (StoreFacts.inject_all (vocab L) boost (trigrams record) (field L))
    as [Hb Ht].
  split; [apply Hb | apply Ht].
Qed.

(** ** Runs *)

Module RunFacts.
Import Lex.

Lemma run_grows cs : ∀ L,
  absorbed_trigrams L ⊆ absorbed_trigrams (run cs L)
  ∧ injections L `prefix_of` injections (run cs L).
Proof.
  induction cs as [|c cs IH]; intros L; [done |].
  change (run (c :: cs) L) with (run cs (step L c)).
  destruct (IH (step L c)) as [Hsub Hpre].
  destruct c as [text src boost now|].
  - split.
    + etrans; [| exact Hsub]. simpl.
      rewrite RecordFacts.absorb_trigrams_set. set_solver.
    + etrans; [| exact Hpre]. simpl.
      rewrite RecordFacts.absorb_injections. by apply prefix_app_r.
  - destruct (TrigramFacts.decay_frame L) as (_ & _ & _ & _ & Hat & _ & Hinj).
    simpl in *. by rewrite Hat, Hinj in *.
Qed.


End RunFacts.

(** X15: no sequence of [absorb] and [decay] calls forgets a trigram:
    the trigram set only grows, the trace of injections is only
    extended, and [total_trigrams] never decreases. *)
Theorem trigrams_are_never_forgotten (cs : list Lex.call) (L : Lexicon) :
  let L' := Lex.run cs L in
  absorbed_trigrams L ⊆ absorbed_trigrams L'
  ∧ injections L `prefix_of` injections L'
  ∧ (total_trigrams (Lex.stats L) ≤ total_trigrams (Lex.stats L'))%nat.
Proof.
  intros L'. destruct (RunFacts.run_grows cs L) as [Hsub Hpre].
  split_and!; [done | done |].
  unfold Lex.stats. cbn [total_trigrams]. by apply subseteq_size.
Qed.


(** ** The persistence wrapper *)

Module AsyncFacts.
Import Async.

Lemma persist_words L record (ws : list string) : ∀ db,
  let db' := foldl (persist_word L record) db ws in
  (∀ w, absorbed_words_table db' !! w
        = if decide (w ∈ ws)
          then Some (default 1%Q (word_weights L !! w),
                     source record, timestamp record)
          else absorbed_words_table db !! w)
  ∧ absorbed_trigrams_table db' = absorbed_trigrams_table db.
Proof.
  induction ws as [|x ws IH]; intros db; cbv zeta.
  - split; [| done]. intros w.
    destruct (decide (w ∈ [])) as [Hin|Hin]; [| done].
    by apply elem_of_nil in Hin.
  - cbn [foldl]. destruct (IH (persist_word L record db x)) as [Hw Ht].
    split; [| by rewrite Ht]. intros w. rewrite Hw.
    destruct (decide (w ∈ ws)) as [Hin|Hin].
    + rewrite decide_True; [done | by right].
    + cbn [persist_word absorbed_words_table].
      destruct (decide (x = w)) as [->|Hne].
      * rewrite decide_True by (by left). apply lookup_insert_eq.
      * rewrite decide_False
          by (intros [?|?]%elem_of_cons; [congruence | done]).
        by apply lookup_insert_ne.
Qed.

Lemma persist_trigrams record (ts : list trigram) : ∀ db,
  let db' := foldl (persist_trigram record) db ts in
  (∀ t, absorbed_trigrams_table db' !! t
        = if decide (t ∈ ts) then Some (source record, timestamp record)
          else absorbed_trigrams_table db !! t)
  ∧ absorbed_words_table db' = absorbed_words_table db.
Proof.
  induction ts as [|x ts IH]; intros db; cbv zeta.
  - split; [| done]. intros t.
    destruct (decide (t ∈ [])) as [Hin|Hin]; [| done].
    by apply elem_of_nil in Hin.
  - cbn [foldl]. destruct (IH (persist_trigram record db x)) as [Ht Hw].
    split; [| by rewrite Hw]. intros t. rewrite Ht.
    destruct (decide (t ∈ ts)) as [Hin|Hin].
    + rewrite decide_True; [done | by right].
    + cbn [persist_trigram absorbed_trigrams_table].
      destruct (decide (x = t)) as [->|Hne].
      * rewrite decide_True by (by left). apply lookup_insert_eq.
      * rewrite decide_False
          by (intros [?|?]%elem_of_cons; [congruence | done]).
        by apply lookup_insert_ne.
Qed.

(** The rows after [_persist_record]. *)
Lemma persist_record_rows L record db :
  let db' := _persist_record L record db in
  (∀ w, absorbed_words_table db' !! w
        = if decide (w ∈ words record)
          then Some (default 1%Q (word_weights L !! w),
                     source record, timestamp record)
          else absorbed_words_table db !! w)
  ∧ (∀ t, absorbed_trigrams_table db' !! t
          = if decide (t ∈ trigrams record)
            then Some (source record, timestamp record)
            else absorbed_trigrams_table db !! t).
Proof.
  unfold _persist_record. cbv zeta.
  destruct (persist_words L record (words record) db) as [Hw Hwt].
  destruct (persist_trigrams record (trigrams record)
              (foldl (persist_word L record) db (words record))) as [Ht Htw].
  split.
  - intros w. by rewrite Htw, Hw.
  - intros t. by rewrite Ht, Hwt.
Qed.

(** With nothing to report there is nothing to write. *)
Lemma persist_record_empty L record db :
  count record = 0%nat → _persist_record L record db = db.
Proof.
  unfold count. intros Hc.
  destruct record as [ts src ws tris]. simpl in *.
  destruct ws; [| simpl in Hc; lia]. destruct tris; [| simpl in Hc; lia].
  by destruct db.
Qed.

(** [AsyncLexicon.absorb] in terms of [Lexicon.absorb]. *)
Lemma async_absorb_unfold text src boost now A :
  let L := (Lex.absorb text src boost now (_sync A)).1 in
  let record := (Lex.absorb text src boost now (_sync A)).2 in
  absorb text src boost now A
  = ({| _sync := L; db_path := db_path A;
        _db_conn := _persist_record L record <$> _db_conn A |},
     record).
Proof.
  intros L record. unfold absorb, L, record.
  destruct (Lex.absorb text src boost now (_sync A)) as [L1 r]. cbn [fst snd].
  destruct (_db_conn A) as [db|]; [| done]. simpl.
  destruct (0 <? count r)%nat eqn:Hc; [done |].
  apply Nat.ltb_ge in Hc. rewrite persist_record_empty by lia. done.
Qed.

Lemma async_decay_unfold A :
  decay A = ({| _sync := (Lex.decay (_sync A)).1; db_path := db_path A;
                _db_conn := _db_conn A |},
             (Lex.decay (_sync A)).2).
Proof. unfold decay. by destruct (Lex.decay (_sync A)). Qed.

Lemma step_sync A c : _sync (step A c) = Lex.step (_sync A) c.
Proof.
  destruct c as [text src boost now|]; simpl.
  - by rewrite async_absorb_unfold.
  - by rewrite async_decay_unfold.
Qed.

Lemma step_path A c : db_path (step A c) = db_path A.
Proof.
  destruct c as [text src boost now|]; simpl.
  - by rewrite async_absorb_unfold.
  - by rewrite async_decay_unfold.
Qed.

(** A call keeps the rows that are there. *)
Lemma step_rows A c db :
  _db_conn A = Some db →
  ∃ db', _db_conn (step A c) = Some db'
         ∧ dom (absorbed_words_table db) ⊆ dom (absorbed_words_table db')
         ∧ dom (absorbed_trigrams_table db) ⊆ dom (absorbed_trigrams_table db').
Proof.
  intros Hdb. destruct c as [text src boost now|]; simpl.
  - rewrite async_absorb_unfold. cbn [fst _db_conn]. rewrite Hdb. simpl.
    eexists. split; [done |].
    destruct (persist_record_rows
                (Lex.absorb text src boost now (_sync A)).1
                (Lex.absorb text src boost now (_sync A)).2 db) as [Hw Ht].
    split.
    + intros w. rewrite !elem_of_dom, Hw. by destruct (decide _).
    + intros t. rewrite !elem_of_dom, Ht. by destruct (decide _).
  - rewrite async_decay_unfold. cbn [fst _db_conn]. by exists db.
Qed.

End AsyncFacts.

(** X17: with a database connection, [AsyncLexicon.absorb] returns the
    record of [Lexicon.absorb] and writes one row per reported word and
    per reported trigram, tagged with the record's source and timestamp,
    leaving every other row as it was.  The weight written for a word is
    its weight after the whole call: [boost] reinforced once for each
    further occurrence of the word in the text. *)
Theorem absorb_persists_the_record
    (text src : string) (boost now : Q) (A : AsyncLexicon) (db : Db) :
  let ws := Extract._extract_words (min_word_length (_sync A)) text in
  let A' := (Async.absorb text src boost now A).1 in
  let record := (Async.absorb text src boost now A).2 in
  _db_conn A = Some db →
  record = (Lex.absorb text src boost now (_sync A)).2
  ∧ _sync A' = (Lex.absorb text src boost now (_sync A)).1
  ∧ ∃ db', _db_conn A' = Some db'
    ∧ (∀ w, absorbed_words_table db' !! w
            = if decide (w ∈ words record)
              then Some (Nat.iter (Lex.occurrences w ws - 1) Lex.reinforce boost,
                         src, now)
              else absorbed_words_table db !! w)
    ∧ (∀ t, absorbed_trigrams_table db' !! t
            = if decide (t ∈ trigrams record) then Some (src, now)
              else absorbed_trigrams_table db !! t).
Proof.
  intros ws A' record Hdb. unfold A', record.
  rewrite AsyncFacts.async_absorb_unfold. cbn [fst snd _sync _db_conn].
  split; [done |]. split; [done |]. rewrite Hdb. simpl.
  eexists. split; [done |].
  destruct (AsyncFacts.persist_record_rows
              (Lex.absorb text src boost now (_sync A)).1
              (Lex.absorb text src boost now (_sync A)).2 db) as [Hw Ht].
  assert (source (Lex.absorb text src boost now (_sync A)).2 = src
          ∧ timestamp (Lex.absorb text src boost now (_sync A)).2 = now)
    as [Hsrc Hnow] by (by rewrite LoopFacts.absorb_unfold).
  split.
  - intros w. rewrite Hw, Hsrc, Hnow.
    destruct (decide (w ∈ words _)) as [Hin|Hin]; [| done].
    rewrite RecordFacts.absorb_record_words in Hin.
    apply LoopFacts.elem_of_fresh_of in Hin as [Hin Hnew].
    rewrite RecordFacts.absorb_weight. fold ws in Hin |- *.
    rewrite bool_decide_eq_false_2 by done.
    apply LoopFacts.occurrences_pos in Hin.
    destruct (Lex.occurrences w ws) as [|k]; [lia |].
    cbn [Lex.final_weight default]. by rewrite Nat.sub_1_r.
  - intros t. by rewrite Ht, Hsrc, Hnow.
Qed.

Lemma absorb_persists_the_record_witness :
  let db := {| absorbed_words_table := ∅; absorbed_trigrams_table := ∅ |} in
  let A := Async.__aenter__ true db
             (Async.__init__ Sample.vocab Sample.empty_field 0.99 3
                (Some "lexicon.db")) in
  ∃ db', _db_conn (Async.absorb "Love, love" "user" 1 7 A).1 = Some db'
         ∧ absorbed_words_table db' !! "love" = Some (Lex.reinforce 1%Q, "user", 7%Q).
Proof.
  intros db A.
  destruct (absorb_persists_the_record "Love, love" "user" 1 7 A db eq_refl)
    as (_ & _ & db' & Hconn & Hw & _).
  exists db'. split; [exact Hconn |]. rewrite Hw. by vm_compute.
Defined.

(** X18: the wrapper adds nothing to the in-memory behaviour: after any
    sequence of calls its lexicon is the one [Lexicon] reaches by the same
    calls and [stats] agrees; [db_path] never changes; without a
    connection none is ever created; and entering the wrapper with no
    path, an empty path, or without aiosqlite opens no connection. *)
Theorem wrapper_is_transparent
    (cs : list Lex.call) (A : AsyncLexicon) (has_aiosqlite : bool) (stored : Db) :
  _sync (Async.run cs A) = Lex.run cs (_sync A)
  ∧ Async.stats (Async.run cs A) = Lex.stats (Lex.run cs (_sync A))
  ∧ db_path (Async.run cs A) = db_path A
  ∧ (_db_conn A = None → _db_conn (Async.run cs A) = None)
  ∧ (Async.has_path (db_path A) = false ∨ has_aiosqlite = false →
     Async.__aenter__ has_aiosqlite stored A = A)
  ∧ (Async.has_path (Some EmptyString) = false ∧ Async.has_path None = false).
Proof.
  assert (∀ A, _sync (Async.run cs A) = Lex.run cs (_sync A)) as Hsync.
  { clear A. induction cs as [|c cs IH]; intros A; [done |].
    change (Async.run (c :: cs) A) with (Async.run cs (Async.step A c)).
    by rewrite IH, AsyncFacts.step_sync. }
  split_and!.
  - apply Hsync.
  - unfold Async.stats. by rewrite Hsync.
  - clear Hsync. revert A. induction cs as [|c cs IH]; intros A; [done |].
    change (Async.run (c :: cs) A) with (Async.run cs (Async.step A c)).
    by rewrite IH, AsyncFacts.step_path.
  - clear Hsync. revert A. induction cs as [|c cs IH]; intros A Hnone; [done |].
    change (Async.run (c :: cs) A) with (Async.run cs (Async.step A c)).
    apply IH. destruct c as [text src boost now|]; simpl.
    + rewrite AsyncFacts.async_absorb_unfold. cbn [fst _db_conn]. by rewrite Hnone.
    + by rewrite AsyncFacts.async_decay_unfold.
  - intros Hoff. unfold Async.__aenter__.
    destruct Hoff as [-> | ->]; [done | by rewrite andb_false_r].
  - done.
  - done.
Qed.

Lemma wrapper_is_transparent_witness :
  let A := Async.__aenter__ true
             {| absorbed_words_table := ∅; absorbed_trigrams_table := ∅ |}
             (Async.__init__ Sample.vocab Sample.empty_field 0.99 3 (Some "")) in
  _db_conn (Async.run [Lex.Absorb "the cat sat" "user" 1 0; Lex.Decay] A) = None.
Proof.
  intros A.
  destruct (wrapper_is_transparent
              [Lex.Absorb "the cat sat" "user" 1 0; Lex.Decay] A true
              {| absorbed_words_table := ∅; absorbed_trigrams_table := ∅ |})
    as (_ & _ & _ & Hnone & _).
  by apply Hnone.
Defined.

(** X19: the database is only written to: no wrapper call deletes a
    row, and [decay] leaves the database as it is, so a word that decay
    removes from memory keeps its row. *)
Theorem persisted_rows_are_never_deleted
    (cs : list Lex.call) (A : AsyncLexicon) (db : Db) :
  _db_conn A = Some db →
  (∃ db', _db_conn (Async.run cs A) = Some db'
          ∧ dom (absorbed_words_table db) ⊆ dom (absorbed_words_table db')
          ∧ dom (absorbed_trigrams_table db)
            ⊆ dom (absorbed_trigrams_table db'))
  ∧ _db_conn (Async.decay A).1 = Some db.
Proof.
  intros Hdb. split; [| by rewrite AsyncFacts.async_decay_unfold].
  revert A db Hdb. induction cs as [|c cs IH]; intros A db Hdb.
  - by exists db.
  - change (Async.run (c :: cs) A) with (Async.run cs (Async.step A c)).
    destruct (AsyncFacts.step_rows A c db Hdb) as (db1 & Hdb1 & Hw1 & Ht1).
    destruct (IH _ _ Hdb1) as (db' & Hdb' & Hw & Ht).
    exists db'. split; [done |]. split; etrans; done.
Qed.

Lemma persisted_rows_are_never_deleted_witness :
  let db := {| absorbed_words_table := ∅; absorbed_trigrams_table := ∅ |} in
  let A := (Async.absorb "faint" "user" (1#10) 0
              (Async.__aenter__ true db
                 (Async.__init__ Sample.vocab Sample.empty_field 0.99 3
                    (Some "lexicon.db")))).1 in
  ("faint" ∉ absorbed_words (_sync (Async.decay A).1))
  ∧ ∃ db', _db_conn (Async.decay A).1 = Some db'
           ∧ is_Some (absorbed_words_table db' !! "faint").
Proof.
  intros db A.
  assert ((_db_conn A ≫= λ d, absorbed_words_table d !! "faint") ≠ None) as Hrow
    by (vm_compute; discriminate).
  destruct (_db_conn A) as [db0|] eqn:Hdb0; [| done].
  simpl in Hrow. apply not_eq_None_Some in Hrow.
  destruct (persisted_rows_are_never_deleted [] A db0 Hdb0) as [_ Hkeep].
  split; [by vm_compute |]. exists db0. by split.
Defined.

(** X20: after [absorb], everything extracted from the text is tracked:
    every extracted word is in [absorbed_words] and has a weight entry,
    and every extracted trigram is in [absorbed_trigrams]; nothing else
    is added to the two sets. *)
Theorem absorb_tracks_the_text
    (text src : string) (boost now : Q) (L : Lexicon) :
  let ws := Extract._extract_words (min_word_length L) text in
  let ts := Extract._extract_trigrams text in
  let L' := (Lex.absorb text src boost now L).1 in
  (∀ w, w ∈ ws → w ∈ absorbed_words L' ∧ is_Some (word_weights L' !! w))
  ∧ (∀ t, t ∈ ts → t ∈ absorbed_trigrams L')
  ∧ (∀ w, w ∈ absorbed_words L' ↔ w ∈ absorbed_words L ∨ w ∈ ws)
  ∧ (∀ t, t ∈ absorbed_trigrams L' ↔ t ∈ absorbed_trigrams L ∨ t ∈ ts)
  ∧ dom (word_weights L') = dom (word_weights L) ∪ list_to_set ws.
Proof.
  intros ws ts L'. unfold L'. split_and!.
  - intros w Hw. split.
    + rewrite RecordFacts.absorb_words_set. set_solver.
    + rewrite RecordFacts.absorb_weight. fold ws.
      apply LoopFacts.occurrences_pos in Hw.
      destruct (Lex.occurrences w ws) as [|k]; [lia |]. by eexists.
  - intros t Ht. rewrite RecordFacts.absorb_trigrams_set. set_solver.
  - intros w. rewrite RecordFacts.absorb_words_set. set_solver.
  - intros t. rewrite RecordFacts.absorb_trigrams_set. set_solver.
  - rewrite LoopFacts.absorb_unfold. cbn [fst word_weights].
    rewrite LoopFacts.word_loop_dom. set_solver.
Qed.

Lemma absorb_tracks_the_text_witness :
  let L' := (Lex.absorb "the cat sat on the mat" "user" 1 0 Sample.fresh).1 in
  "mat" ∈ absorbed_words L' ∧ ("sat", "on", "the") ∈ absorbed_trigrams L'.
Proof.
  destruct (absorb_tracks_the_text "the cat sat on the mat" "user" 1 0
              Sample.fresh) as (Hw & Ht & _).
  split.
  - apply Hw. vm_compute. do 4 apply list_elem_of_further. apply list_elem_of_here.
  - apply Ht. vm_compute. do 2 apply list_elem_of_further. apply list_elem_of_here.
Defined.

Lemma reabsorb_reports_nothing_witness :
  let L1 := (Lex.absorb "Love, love" "user" 1 0 Sample.fresh).1 in
  let L2 := (Lex.absorb "Love, love" "self" 9 1 L1).1 in
  word_weights L2 !! "love"
  = Some (Lex.reinforce (Lex.reinforce (Lex.reinforce 1%Q))).
Proof.
  intros L1 L2. unfold L2, L1.
  destruct (reabsorb_reports_nothing "Love, love" "user" "self" 1 0 9 1
              Sample.fresh) as (_ & _ & _ & _ & _ & _ & _ & Hw).
  rewrite (Hw "love"); [by vm_compute |].
  vm_compute. apply list_elem_of_here.
Defined.

